(** * Fuzzy compatibility scoring (app.py): a shallow embedding

    app.py builds seven linguistic variables with triangular membership
    functions, twelve rules in four control systems, and a function
    [compute_compatibility_score] that runs one simulation per control
    system and averages the four crisp outputs.

    Conventions of the embedding.
    - Python floats are exact rationals in canonical form ([Qc]), so that
      numerically equal values are equal terms.
    - numpy arrays are lists; [np.arange], [np.interp], [np.fmin],
      [np.fmax], [np.union1d] are written out below.
    - The calls into the fuzzy-control library ([fuzz.trimf],
      [ctrl.Antecedent], [ctrl.Rule], [ctrl.ControlSystem],
      [ctrl.ControlSystemSimulation], [sim.input[k] = v], [sim.compute()],
      [sim.output[k]]) are embedded by what those calls do: fuzzification by
      interpolation on the sampled universe, [&] as minimum, accumulation by
      maximum, clipping of each term at its activation, centroid
      defuzzification on the universe refined with the clipping points.
    - The library keeps one slot [input['current']] per antecedent object,
      shared by every simulation; a simulation copies the slots of its
      antecedents when an input is stored and again when it computes.  That
      shared table is the state threaded through the monad [M]; a simulation
      object itself is a local value of the function that created it.
    - A raised exception is a value [Raise e].  For an output set that is
      zero everywhere the exception written here is the ValueError that
      [compute()] raises in scikit-fuzzy 0.4.2; later releases let
      [compute()] return and the read of [output['compatibility']] raises
      KeyError.  app.py pins no release: in either case the call raises and
      no score is returned, and that is all the properties of this case
      state about the exception.
    - An input is a finite number.  numpy converts a Python int to a 64-bit
      integer when the input is clipped and raises OverflowError outside
      that range; [within_int64] is the range the embedding of
      [sim.input[k] = v] covers. *)

From Stdlib Require Import QArith Qcanon Lqa.
From stdpp Require Import gmap strings list fin_maps numbers sorting.
Local Open Scope Qc_scope.

(** ** Numbers and arrays *)

(** [np.fmin], [np.fmax] on scalars. *)
Definition fmin (x y : Qc) : Qc := if bool_decide (x ≤ y) then x else y.
Definition fmax (x y : Qc) : Qc := if bool_decide (x ≤ y) then y else x.

(** [np.arange(start, stop, step)] for integer arguments, [step > 0]. *)
Definition arange (start stop step : Z) : list Qc :=
  (λ i : nat, Qc_of_Z (start + Z.of_nat i * step))
    <$> seq 0 (Z.to_nat ((stop - start + step - 1) `div` step)).

(** [a.max()], [a.min()], [a.sum()] of a non-empty array. *)
Definition amax (l : list Qc) : Qc :=
  match l with [] => 0 | h :: t => foldl fmax h t end.
Definition amin (l : list Qc) : Qc :=
  match l with [] => 0 | h :: t => foldl fmin h t end.
Definition asum (l : list Qc) : Qc := foldl Qcplus 0 l.

(** [np.interp(xx, xp, fp, left, right)]: piecewise linear interpolation
    through the points [(xp[i], fp[i])], [xp] increasing; [left] below the
    first abscissa, [right] above the last. *)
Fixpoint interp_in (xx : Qc) (pts : list (Qc * Qc)) : option Qc :=
  match pts with
  | [] => None
  | (x0, y0) :: rest =>
      match rest with
      | [] => if bool_decide (xx = x0) then Some y0 else None
      | (x1, y1) :: _ =>
          if bool_decide (xx < x1)
          then Some (y0 + (y1 - y0) / (x1 - x0) * (xx - x0))
          else interp_in xx rest
      end
  end.

Definition interp (xx : Qc) (xp fp : list Qc) (left right : Qc) : Qc :=
  match xp with
  | [] => right
  | x0 :: _ =>
      if bool_decide (xx < x0) then left
      else default right (interp_in xx (zip xp fp))
  end.

(** [np.union1d(a, b)]: the sorted array of the distinct values. *)
Fixpoint insert_unique (x : Qc) (l : list Qc) : list Qc :=
  match l with
  | [] => [x]
  | h :: t =>
      if bool_decide (x < h) then x :: l
      else if bool_decide (x = h) then l
      else h :: insert_unique x t
  end.
Definition union1d (a b : list Qc) : list Qc := foldr insert_unique [] (a ++ b).

(** ** Membership functions *)

(** One element of [fuzz.trimf(x, [a, b, c])]: the array starts at zero,
    the rising side is written where [a < x < b] (if [a != b]), the falling
    side where [b < x < c] (if [b != c]), and last the points [x == b] are
    set to one. *)
Definition trimf_pt (a b c x : Qc) : Qc :=
  let y := 0 in
  let y := if bool_decide (a ≠ b) && bool_decide (a < x) && bool_decide (x < b)
           then (x - a) / (b - a) else y in
  let y := if bool_decide (b ≠ c) && bool_decide (b < x) && bool_decide (x < c)
           then (c - x) / (c - b) else y in
  if bool_decide (x = b) then 1 else y.

Definition trimf (x : list Qc) (abc : Z * Z * Z) : list Qc :=
  let '(a, b, c) := abc in trimf_pt (Qc_of_Z a) (Qc_of_Z b) (Qc_of_Z c) <$> x.

(** [fuzz.interp_membership(x, xmf, xx)]: the degree of [xx], zero outside
    the universe. *)
Definition interp_membership (x xmf : list Qc) (xx : Qc) : Qc :=
  interp xx x xmf 0 0.

(** The universe values at which the sampled membership function crosses
    the level [y]: between two neighbouring samples of which exactly one is
    at or above [y] (strictly above when [y] is zero), by linear
    interpolation. *)
Fixpoint crossings (above : Qc → bool) (y : Qc) (pts : list (Qc * Qc)) : list Qc :=
  match pts with
  | [] => []
  | (x0, m0) :: rest =>
      match rest with
      | [] => []
      | (x1, m1) :: _ =>
          (if xorb (above m0) (above m1)
           then [x0 + (y - m0) * (x1 - x0) / (m1 - m0)] else [])
          ++ crossings above y rest
      end
  end.

Definition interp_universe (x xmf : list Qc) (y : Qc) : list Qc :=
  let above := if bool_decide (y = 0)
               then (λ m, bool_decide (y < m)) else (λ m, bool_decide (y ≤ m)) in
  crossings above y (zip x xmf).

(** ** Linguistic variables *)

Record FuzzyVariable := {
  label : string;
  universe : list Qc;
  terms : list (string * list Qc)
}.

(** [ctrl.Antecedent(universe, label)], [ctrl.Consequent(universe, label)]. *)
Definition Antecedent (u : list Qc) (l : string) : FuzzyVariable :=
  {| label := l; universe := u; terms := [] |}.
Definition Consequent (u : list Qc) (l : string) : FuzzyVariable :=
  {| label := l; universe := u; terms := [] |}.

(** [var[key] = mf]: an ordered dictionary; a new key is appended, an
    existing key keeps its place. *)
Fixpoint dict_set (key : string) (mf : list Qc) (d : list (string * list Qc))
  : list (string * list Qc) :=
  match d with
  | [] => [(key, mf)]
  | (k, v) :: d' =>
      if bool_decide (k = key) then (k, mf) :: d' else (k, v) :: dict_set key mf d'
  end.
Definition setitem (v : FuzzyVariable) (key : string) (mf : list Qc) : FuzzyVariable :=
  {| label := label v; universe := universe v; terms := dict_set key mf (terms v) |}.

Fixpoint dict_get (key : string) (d : list (string * list Qc)) : option (list Qc) :=
  match d with
  | [] => None
  | (k, v) :: d' => if bool_decide (k = key) then Some v else dict_get key d'
  end.

(** Three triangular terms on a variable, as each block of app.py sets them. *)
Definition with_terms (v : FuzzyVariable) (ts : list (string * (Z * Z * Z)))
  : FuzzyVariable :=
  foldl (λ v '(k, abc), setitem v k (trimf (universe v) abc)) v ts.

Definition compatibility : FuzzyVariable :=
  with_terms (Consequent (arange 0 101 1) "compatibility")
    [("low", (0, 25, 50)); ("medium", (25, 50, 75)); ("high", (50, 75, 100))]%Z.

Definition skin_colour : FuzzyVariable :=
  with_terms (Antecedent (arange 0 101 1) "skin_colour")
    [("light", (0, 25, 50)); ("medium", (25, 50, 75)); ("dark", (50, 75, 100))]%Z.

Definition hair_colour : FuzzyVariable :=
  with_terms (Antecedent (arange 0 101 1) "hair_colour")
    [("blonde", (0, 25, 50)); ("brown", (25, 50, 75)); ("black", (50, 75, 100))]%Z.

Definition height : FuzzyVariable :=
  with_terms (Antecedent (arange 120 220 1) "height")
    [("short", (120, 150, 170)); ("average", (150, 170, 190)); ("tall", (170, 190, 220))]%Z.

Definition temperament : FuzzyVariable :=
  with_terms (Antecedent (arange 0 101 1) "temperament")
    [("calm", (0, 25, 50)); ("balanced", (25, 50, 75)); ("angry", (50, 75, 100))]%Z.

Definition blood_group : FuzzyVariable :=
  with_terms (Antecedent (arange 0 101 1) "blood_group")
    [("A", (0, 25, 50)); ("B", (25, 50, 75)); ("O", (50, 75, 100))]%Z.

Definition educational_level : FuzzyVariable :=
  with_terms (Antecedent (arange 0 101 1) "educational_level")
    [("low", (0, 25, 50)); ("medium", (25, 50, 75)); ("high", (50, 75, 100))]%Z.

(** ** Rules and control systems *)

(** [var[key]] is a term of a variable; [t1 & t2] is their conjunction. *)
Inductive TermAggregate :=
  | Term (var : FuzzyVariable) (key : string)
  | And (l r : TermAggregate).
Infix "&" := And (at level 40, left associativity).

Record Rule := {
  antecedent : TermAggregate;
  consequent : FuzzyVariable * string
}.

Record ControlSystem := { rules : list Rule }.

Definition rule_skin_light : Rule :=
  {| antecedent := Term skin_colour "light" & Term hair_colour "blonde" & Term height "tall";
     consequent := (compatibility, "high") |}.
Definition rule_skin_medium : Rule :=
  {| antecedent := Term skin_colour "medium" & Term hair_colour "brown" & Term height "average";
     consequent := (compatibility, "medium") |}.
Definition rule_skin_dark : Rule :=
  {| antecedent := Term skin_colour "dark" & Term hair_colour "black" & Term height "short";
     consequent := (compatibility, "low") |}.

Definition rule_calm : Rule :=
  {| antecedent := Term temperament "calm"; consequent := (compatibility, "high") |}.
Definition rule_balanced : Rule :=
  {| antecedent := Term temperament "balanced"; consequent := (compatibility, "medium") |}.
Definition rule_angry : Rule :=
  {| antecedent := Term temperament "angry"; consequent := (compatibility, "low") |}.

Definition rule_blood_A : Rule :=
  {| antecedent := Term blood_group "A"; consequent := (compatibility, "high") |}.
Definition rule_blood_B : Rule :=
  {| antecedent := Term blood_group "B"; consequent := (compatibility, "medium") |}.
Definition rule_blood_O : Rule :=
  {| antecedent := Term blood_group "O"; consequent := (compatibility, "low") |}.

Definition rule_educ_low : Rule :=
  {| antecedent := Term educational_level "low"; consequent := (compatibility, "low") |}.
Definition rule_educ_medium : Rule :=
  {| antecedent := Term educational_level "medium"; consequent := (compatibility, "medium") |}.
Definition rule_educ_high : Rule :=
  {| antecedent := Term educational_level "high"; consequent := (compatibility, "high") |}.

Definition compatibility_morphological_ctrl : ControlSystem :=
  {| rules := [rule_skin_light; rule_skin_medium; rule_skin_dark] |}.
Definition compatibility_psychological_ctrl : ControlSystem :=
  {| rules := [rule_calm; rule_balanced; rule_angry] |}.
Definition compatibility_medical_ctrl : ControlSystem :=
  {| rules := [rule_blood_A; rule_blood_B; rule_blood_O] |}.
Definition compatibility_salary_ctrl : ControlSystem :=
  {| rules := [rule_educ_low; rule_educ_medium; rule_educ_high] |}.

Global Instance FuzzyVariable_eq_dec : EqDecision FuzzyVariable.
Proof. solve_decision. Defined.

(** The terms an antecedent expression is built from, left to right. *)
Fixpoint leaves (e : TermAggregate) : list (FuzzyVariable * string) :=
  match e with
  | Term var key => [(var, key)]
  | And l r => leaves l ++ leaves r
  end.

(** The antecedent and consequent variables of a control system: the
    variables its rules mention, each once. *)
Definition antecedents (c : ControlSystem) : list FuzzyVariable :=
  remove_dups (rules c ≫= λ r, fst <$> leaves (antecedent r)).
Definition consequents (c : ControlSystem) : list FuzzyVariable :=
  remove_dups ((λ r, fst (consequent r)) <$> rules c).

(** ** Exceptions and the state monad *)

Inductive Exception :=
  | ValueError (msg : string)
  | KeyError (key : string)
  | TypeError
  | AssertionError.

Inductive Result (A : Type) :=
  | Ok (a : A)
  | Raise (e : Exception).
Arguments Ok {A} a.
Arguments Raise {A} e.

(** The state: the slot [input['current']] of every antecedent, by label. *)
Definition M (A : Type) : Type := gmap string Qc → Result A * gmap string Qc.

Definition ret {A} (a : A) : M A := λ cur, (Ok a, cur).
Definition raise {A} (e : Exception) : M A := λ cur, (Raise e, cur).
Definition lift {A} (r : Result A) : M A := λ cur, (r, cur).
Definition bind {A B} (m : M A) (k : A → M B) : M B := λ cur,
  match m cur with
  | (Ok a, cur') => k a cur'
  | (Raise e, cur') => (Raise e, cur')
  end.
Notation "x <- m ;; k" := (bind m (λ x, k))
  (at level 100, m at next level, right associativity).

(** ** Simulations *)

(** The per-simulation state: the inputs copied from the shared slots, the
    membership value of each term (by variable label and term key), and the
    outputs. *)
Record Simulation := {
  ctrl : ControlSystem;
  input : gmap string Qc;
  membership_value : gmap (string * string) Qc;
  output : gmap string Qc
}.

Definition ControlSystemSimulation (c : ControlSystem) : Simulation :=
  {| ctrl := c; input := ∅; membership_value := ∅; output := ∅ |}.

(** [d[k] = o] where [o] may be [None]. *)
Definition store {K} `{Countable K} (k : K) (o : option Qc) (m : gmap K Qc) : gmap K Qc :=
  match o with Some v => <[k := v]> m | None => delete k m end.

(** Every antecedent of the simulation's control system takes the value of
    its shared slot. *)
Definition update_to_current (sim : Simulation) (cur : gmap string Qc) : Simulation :=
  {| ctrl := ctrl sim;
     input := foldl (λ inp a, store (label a) (cur !! label a) inp)
                    (input sim) (antecedents (ctrl sim));
     membership_value := membership_value sim;
     output := output sim |}.

(** [sim.input[key] = value]: the value is clipped to the universe of the
    antecedent, written to its shared slot, and the simulation refreshes its
    inputs from the slots.  The value is a finite number that numpy can
    clip: see [within_int64] below. *)
Definition set_input (sim : Simulation) (key : string) (value : Qc) : M Simulation :=
  λ cur,
  match filter (λ a, label a = key) (antecedents (ctrl sim)) with
  | [] => (Raise (ValueError ("Unexpected input: " +:+ key)), cur)
  | [var] =>
      let value := fmin value (amax (universe var)) in
      let value := fmax value (amin (universe var)) in
      let cur := <[key := value]> cur in
      (Ok (update_to_current sim cur), cur)
  | _ => (Raise AssertionError, cur)
  end.

(** Fuzzification of one antecedent: every term gets the degree of the
    crisp value. *)
Definition fuzz (var : FuzzyVariable) (value : Qc)
    (mv : gmap (string * string) Qc) : gmap (string * string) Qc :=
  foldl (λ mv '(k, mf),
           <[(label var, k) := interp_membership (universe var) mf value]> mv)
        mv (terms var).

Fixpoint fuzz_all (vars : list FuzzyVariable) (inp : gmap string Qc)
    (mv : gmap (string * string) Qc) : Result (gmap (string * string) Qc) :=
  match vars with
  | [] => Ok mv
  | var :: vars' =>
      match inp !! label var with
      | None => Raise (ValueError "All antecedents must have input values!")
      | Some v => fuzz_all vars' inp (fuzz var v mv)
      end
  end.

(** The membership value of an antecedent expression: [&] is [np.fmin]. *)
Fixpoint aggregate_membership (mv : gmap (string * string) Qc)
    (e : TermAggregate) : option Qc :=
  match e with
  | Term var key => mv !! (label var, key)
  | And l r =>
      match aggregate_membership mv l, aggregate_membership mv r with
      | Some x, Some y => Some (fmin x y)
      | _, _ => None
      end
  end.

(** One rule: its firing strength, weighted by the consequent's weight
    (one), is accumulated into the consequent term with [np.fmax]. *)
Definition compute_rule (r : Rule) (mv : gmap (string * string) Qc)
  : Result (gmap (string * string) Qc) :=
  match aggregate_membership mv (antecedent r) with
  | None => Raise TypeError
  | Some aggregate_firing =>
      let activation := aggregate_firing * 1 in
      let k := (label (fst (consequent r)), snd (consequent r)) in
      match mv !! k with
      | None => Ok (<[k := activation]> mv)
      | Some old => Ok (<[k := fmax activation old]> mv)
      end
  end.

(** The loop over the rules; before the first rule the membership value of
    its consequent term is reset. *)
Fixpoint compute_rules (first : bool) (rs : list Rule)
    (mv : gmap (string * string) Qc) : Result (gmap (string * string) Qc) :=
  match rs with
  | [] => Ok mv
  | r :: rs' =>
      let mv := if first
                then delete (label (fst (consequent r)), snd (consequent r)) mv
                else mv in
      match compute_rule r mv with
      | Ok mv' => compute_rules false rs' mv'
      | Raise e => Raise e
      end
  end.

(** ** Defuzzification *)

(** The terms of a variable that have a membership value, with that value
    (their cut). *)
Definition cut_terms (var : FuzzyVariable) (mv : gmap (string * string) Qc)
  : list (list Qc * Qc) :=
  omap (λ '(k, mf), (λ cut, (mf, cut)) <$> mv !! (label var, k)) (terms var).

(** The universe refined with the points where a term meets its cut, and
    on it the pointwise maximum of the terms clipped at their cuts. *)
Definition find_memberships (var : FuzzyVariable) (mv : gmap (string * string) Qc)
  : list Qc * list Qc * nat :=
  let cuts := cut_terms var mv in
  let new_values := cuts ≫= λ '(mf, cut), interp_universe (universe var) mf cut in
  let new_universe := union1d (universe var) new_values in
  let output_mf :=
    foldl (λ out '(mf, cut),
             zip_with fmax out
               ((λ u, fmin cut (interp_membership (universe var) mf u)) <$> new_universe))
          ((λ _, 0) <$> new_universe) cuts in
  (new_universe, output_mf, length cuts).

(** [np.finfo(float).eps] *)
Definition eps : Qc := Q2Qc (1 # 4503599627370496).

(** The centroid loop over neighbouring points: the moment and area of each
    trapezoid (rectangle, triangle) are accumulated. *)
Fixpoint centroid_loop (pts : list (Qc * Qc)) (sum_moment_area sum_area : Qc) : Qc * Qc :=
  match pts with
  | [] => (sum_moment_area, sum_area)
  | (x1, y1) :: rest =>
      match rest with
      | [] => (sum_moment_area, sum_area)
      | (x2, y2) :: _ =>
          if bool_decide (y1 = 0 ∧ y2 = 0) || bool_decide (x1 = x2)
          then centroid_loop rest sum_moment_area sum_area
          else
            let '(moment, area) :=
              if bool_decide (y1 = y2)
              then (Q2Qc (1 # 2) * (x1 + x2), (x2 - x1) * y1)
              else if bool_decide (y1 = 0) && bool_decide (y2 ≠ 0)
              then (Q2Qc (2 # 3) * (x2 - x1) + x1, Q2Qc (1 # 2) * (x2 - x1) * y2)
              else if bool_decide (y2 = 0) && bool_decide (y1 ≠ 0)
              then (Q2Qc (1 # 3) * (x2 - x1) + x1, Q2Qc (1 # 2) * (x2 - x1) * y1)
              else (Q2Qc (2 # 3) * (x2 - x1) * (y2 + Q2Qc (1 # 2) * y1) / (y1 + y2) + x1,
                    Q2Qc (1 # 2) * (x2 - x1) * (y1 + y2)) in
            centroid_loop rest (sum_moment_area + moment * area) (sum_area + area)
      end
  end.

Definition centroid (x mfx : list Qc) : Qc :=
  match x, mfx with
  | [x0], m0 :: _ => x0 * m0 / fmax m0 eps
  | _, _ =>
      let '(sum_moment_area, sum_area) := centroid_loop (zip x mfx) 0 0 in
      sum_moment_area / fmax sum_area eps
  end.

(** [fuzz.defuzz(x, mfx, 'centroid')]: refuses a set of zero total height. *)
Definition defuzz (x mfx : list Qc) : Result Qc :=
  if bool_decide (asum mfx = 0) then Raise AssertionError
  else Ok (centroid x mfx).

(** Defuzzification of one consequent of a simulation.  The ValueError for
    a set of zero total height is what scikit-fuzzy 0.4.2 raises; see the
    conventions at the head of the file. *)
Definition defuzz_var (var : FuzzyVariable) (mv : gmap (string * string) Qc)
  : Result Qc :=
  let '(ups_universe, output_mf, n_cut) := find_memberships var mv in
  if bool_decide (n_cut = 0%nat)
  then Raise (ValueError "No terms have memberships.")
  else match defuzz ups_universe output_mf with
       | Ok v => Ok v
       | Raise AssertionError => Raise (ValueError "Crisp output cannot be calculated.")
       | Raise e => Raise e
       end.

Fixpoint defuzz_all (vars : list FuzzyVariable) (mv : gmap (string * string) Qc)
    (out : gmap string Qc) : Result (gmap string Qc) :=
  match vars with
  | [] => Ok out
  | var :: vars' =>
      match defuzz_var var mv with
      | Ok v => defuzz_all vars' mv (<[label var := v]> out)
      | Raise e => Raise e
      end
  end.

(** [sim.compute()] *)
Definition compute (sim : Simulation) : M Simulation := λ cur,
  let sim := update_to_current sim cur in
  match fuzz_all (antecedents (ctrl sim)) (input sim) (membership_value sim) with
  | Raise e => (Raise e, cur)
  | Ok mv =>
      match compute_rules true (rules (ctrl sim)) mv with
      | Raise e => (Raise e, cur)
      | Ok mv =>
          match defuzz_all (consequents (ctrl sim)) mv (output sim) with
          | Raise e => (Raise e, cur)
          | Ok out =>
              (Ok {| ctrl := ctrl sim; input := input sim;
                     membership_value := mv; output := out |}, cur)
          end
      end
  end.

(** [sim.output[key]] *)
Definition get_output (sim : Simulation) (key : string) : M Qc :=
  match output sim !! key with
  | Some v => ret v
  | None => raise (KeyError key)
  end.

(** ** The program *)

Definition compute_compatibility_score
    (skin_color hair_color height temperament blood_group educational_level : Qc)
  : M Qc :=
  let morphological_sim := ControlSystemSimulation compatibility_morphological_ctrl in
  let psychological_sim := ControlSystemSimulation compatibility_psychological_ctrl in
  let medical_sim := ControlSystemSimulation compatibility_medical_ctrl in
  let salary_sim := ControlSystemSimulation compatibility_salary_ctrl in
  morphological_sim <- set_input morphological_sim "skin_colour" skin_color ;;
  morphological_sim <- set_input morphological_sim "hair_colour" hair_color ;;
  morphological_sim <- set_input morphological_sim "height" height ;;
  psychological_sim <- set_input psychological_sim "temperament" temperament ;;
  medical_sim <- set_input medical_sim "blood_group" blood_group ;;
  salary_sim <- set_input salary_sim "educational_level" educational_level ;;
  morphological_sim <- compute morphological_sim ;;
  psychological_sim <- compute psychological_sim ;;
  medical_sim <- compute medical_sim ;;
  salary_sim <- compute salary_sim ;;
  m <- get_output morphological_sim "compatibility" ;;
  p <- get_output psychological_sim "compatibility" ;;
  d <- get_output medical_sim "compatibility" ;;
  s <- get_output salary_sim "compatibility" ;;
  ret ((m + p + d + s) / Qc_of_Z 4).

(** The verdict printed at the end of the module. *)
Inductive Verdict := High | Low.
Definition verdict (compatibility_score_male compatibility_score_female : Qc) : Verdict :=
  if bool_decide (Qc_of_Z 50 ≤ compatibility_score_male)
     && bool_decide (Qc_of_Z 50 ≤ compatibility_score_female)
  then High else Low.

(** The module's top level: the inputs of the two example individuals, the
    two evaluations in order on the same shared slots, and the verdict.
    The three values returned are what the three [print]s show. *)
Definition skin_color_male : Qc := Qc_of_Z 70.
Definition hair_color_male : Qc := Qc_of_Z 60.
Definition height_male : Qc := Qc_of_Z 180.
Definition temperament_male : Qc := Qc_of_Z 20.
Definition blood_group_male : Qc := Qc_of_Z 30.
Definition educational_level_male : Qc := Qc_of_Z 80.

Definition skin_color_female : Qc := Qc_of_Z 80.
Definition hair_color_female : Qc := Qc_of_Z 70.
Definition height_female : Qc := Qc_of_Z 165.
Definition temperament_female : Qc := Qc_of_Z 70.
Definition blood_group_female : Qc := Qc_of_Z 40.
Definition educational_level_female : Qc := Qc_of_Z 70.

Definition main : M (Qc * Qc * Verdict) :=
  compatibility_score_male <-
    compute_compatibility_score skin_color_male hair_color_male height_male
      temperament_male blood_group_male educational_level_male ;;
  compatibility_score_female <-
    compute_compatibility_score skin_color_female hair_color_female height_female
      temperament_female blood_group_female educational_level_female ;;
  ret (compatibility_score_male, compatibility_score_female,
       verdict compatibility_score_male compatibility_score_female).

(** One control system's share of [compute_compatibility_score]: a fresh
    simulation, its inputs stored in order, one [compute()], and the
    [compatibility] output read. *)
Fixpoint set_inputs (sim : Simulation) (inputs : list (string * Qc)) : M Simulation :=
  match inputs with
  | [] => ret sim
  | (k, v) :: inputs' => sim <- set_input sim k v ;; set_inputs sim inputs'
  end.

Definition infer (c : ControlSystem) (inputs : list (string * Qc)) : M Qc :=
  sim <- set_inputs (ControlSystemSimulation c) inputs ;;
  sim <- compute sim ;;
  get_output sim "compatibility".

Definition score {A} (r : Result A * gmap string Qc) : Result A := fst r.

(** ** The stateless reading of one simulation

    What a fresh simulation computes, written without the shared slots:
    [check_inputs] is the validation and clipping that [sim.input[k] = v]
    performs, [crisp_output] is [compute()] followed by
    [output['compatibility']] when the inputs of the antecedents are given
    by a table.  The lemmas below relate them to the stateful code. *)

Definition clip (var : FuzzyVariable) (value : Qc) : Qc :=
  fmax (fmin value (amax (universe var))) (amin (universe var)).

Fixpoint check_inputs (c : ControlSystem) (inputs : list (string * Qc))
  : Result (list (string * Qc)) :=
  match inputs with
  | [] => Ok []
  | (k, v) :: inputs' =>
      match filter (λ a, label a = k) (antecedents c) with
      | [] => Raise (ValueError ("Unexpected input: " +:+ k))
      | [var] =>
          match check_inputs c inputs' with
          | Ok kvs => Ok ((k, clip var v) :: kvs)
          | Raise e => Raise e
          end
      | _ => Raise AssertionError
      end
  end.

Definition write_inputs (kvs : list (string * Qc)) (cur : gmap string Qc)
  : gmap string Qc :=
  foldl (λ m '(k, v), <[k := v]> m) cur kvs.

Definition crisp_output (c : ControlSystem) (inp : gmap string Qc) : Result Qc :=
  match fuzz_all (antecedents c) inp ∅ with
  | Raise e => Raise e
  | Ok mv =>
      match compute_rules true (rules c) mv with
      | Raise e => Raise e
      | Ok mv =>
          match defuzz_all (consequents c) mv ∅ with
          | Raise e => Raise e
          | Ok out =>
              match out !! "compatibility" with
              | Some v => Ok v
              | None => Raise (KeyError "compatibility")
              end
          end
      end
  end.

(** The degree of a crisp value in a term, and the firing strength of an
    antecedent expression when the variables' inputs are given by a table. *)
Definition degree (var : FuzzyVariable) (key : string) (value : Qc) : option Qc :=
  (λ mf, interp_membership (universe var) mf value) <$> dict_get key (terms var).

Fixpoint strength (inp : gmap string Qc) (e : TermAggregate) : option Qc :=
  match e with
  | Term var key => inp !! label var ≫= degree var key
  | And l r =>
      match strength inp l, strength inp r with
      | Some x, Some y => Some (fmin x y)
      | _, _ => None
      end
  end.

(** A control system without chaining: antecedent labels and consequent
    labels are distinct names of distinct variables, and every term a rule
    mentions is a term of its variable. *)
Definition keys (var : FuzzyVariable) : list string := (terms var).*1.

Definition well_formed (c : ControlSystem) : Prop :=
  NoDup (label <$> antecedents c) ∧
  NoDup (label <$> consequents c) ∧
  Forall (λ a, NoDup (keys a)) (antecedents c) ∧
  Forall (λ r, (label (consequent r).1 ∉ label <$> antecedents c) ∧
               (consequent r).2 ∈ keys (consequent r).1 ∧
               Forall (λ t, t.2 ∈ keys t.1) (leaves (antecedent r))) (rules c).

Global Instance well_formed_dec c : Decision (well_formed c).
Proof. unfold well_formed. apply _. Defined.

(** A variable whose universe is increasing and whose membership arrays
    are non-negative. *)
Definition sampled_ok (a : FuzzyVariable) : Prop :=
  StronglySorted Qclt (universe a) ∧
  Forall (λ t, Forall (λ m, 0 ≤ m) t.2) (terms a).

Global Instance sampled_ok_dec a : Decision (sampled_ok a).
Proof. unfold sampled_ok. apply _. Defined.

(** The four control systems with the inputs that
    [compute_compatibility_score] stores in their simulations. *)
Definition groups (skin_color hair_color height temperament blood_group
                   educational_level : Qc)
  : list (ControlSystem * list (string * Qc)) :=
  [(compatibility_morphological_ctrl,
    [("skin_colour", skin_color); ("hair_colour", hair_color); ("height", height)]);
   (compatibility_psychological_ctrl, [("temperament", temperament)]);
   (compatibility_medical_ctrl, [("blood_group", blood_group)]);
   (compatibility_salary_ctrl, [("educational_level", educational_level)])].

(** The firing strengths of the rules of a control system at the given
    inputs, in rule order. *)
Definition firing (c : ControlSystem) (inputs : list (string * Qc))
  : list (option Qc) :=
  match check_inputs c inputs with
  | Ok kvs => (λ r, strength (write_inputs kvs ∅) (antecedent r)) <$> rules c
  | Raise _ => []
  end.

(** The terms of the seven variables as app.py declares them: the
    breakpoints passed to [fuzz.trimf] for each key. *)
Definition declared_terms : list (FuzzyVariable * list (string * (Z * Z * Z))) :=
  [(compatibility,
    [("low", (0, 25, 50)); ("medium", (25, 50, 75)); ("high", (50, 75, 100))]);
   (skin_colour,
    [("light", (0, 25, 50)); ("medium", (25, 50, 75)); ("dark", (50, 75, 100))]);
   (hair_colour,
    [("blonde", (0, 25, 50)); ("brown", (25, 50, 75)); ("black", (50, 75, 100))]);
   (height,
    [("short", (120, 150, 170)); ("average", (150, 170, 190)); ("tall", (170, 190, 220))]);
   (temperament,
    [("calm", (0, 25, 50)); ("balanced", (25, 50, 75)); ("angry", (50, 75, 100))]);
   (blood_group,
    [("A", (0, 25, 50)); ("B", (25, 50, 75)); ("O", (50, 75, 100))]);
   (educational_level,
    [("low", (0, 25, 50)); ("medium", (25, 50, 75)); ("high", (50, 75, 100))])]%Z.

(** A value limited to the integer bounds [lo] and [hi]. *)
Definition clamp (lo hi : Z) (v : Qc) : Qc :=
  fmax (fmin v (Qc_of_Z hi)) (Qc_of_Z lo).

(** The inputs [sim.input[key] = value] clips without overflow: the range
    of a 64-bit integer, into which numpy converts a Python int. *)
Definition within_int64 (value : Qc) : Prop :=
  Qc_of_Z (- 2 ^ 63) ≤ value ∧ value < Qc_of_Z (2 ^ 63).

(** The inputs name every antecedent of the control system. *)
Definition complete (c : ControlSystem) (inputs : list (string * Qc)) : Prop :=
  Forall (λ a, label a ∈ inputs.*1) (antecedents c).

Global Instance complete_dec c inputs : Decision (complete c inputs).
Proof. unfold complete. apply _. Defined.

(** * Properties *)

(** ** Arithmetic on canonical rationals, through [Q] *)

Lemma Qc_eq_this (x y : Qc) : x = y → (this x == this y)%Q.
Proof. by intros ->. Qed.

Lemma Qc_neq_this (x y : Qc) : x ≠ y → ¬ (this x == this y)%Q.
Proof. intros H E. by apply H, Qc_is_canon. Qed.

Ltac qc2q :=
  unfold Qcle, Qclt in *;
  repeat match goal with
  | |- @eq Qc _ _ => apply Qc_is_canon
  | H : @eq Qc _ _ |- _ => apply Qc_eq_this in H
  | H : ¬ @eq Qc _ _ |- _ => apply Qc_neq_this in H
  end;
  unfold Qcdiv, Qcminus, Qcplus, Qcmult, Qcopp, Qcinv, Q2Qc, Qc_of_Z in *;
  simpl this in *;
  rewrite ?Qred_correct in *.
Ltac qc_lra := intros; qc2q; lra.
Ltac qc_nra := intros; qc2q; nra.

Lemma Qc_lt_of_le_ne (x y : Qc) : x ≤ y → x ≠ y → x < y.
Proof.
  intros Hle Hne. destruct (Qcle_lt_or_eq _ _ Hle); [done | by destruct Hne].
Qed.

Lemma Qc_div_nonneg (p d : Qc) : 0 ≤ p → 0 < d → 0 ≤ p / d.
Proof. intros. qc2q. apply Qle_shift_div_l; lra. Qed.

Lemma Qc_div_le_1 (p d : Qc) : p ≤ d → 0 < d → p / d ≤ 1.
Proof. intros. qc2q. apply Qle_shift_div_r; lra. Qed.

Lemma Qc_div_mono (p q d : Qc) : p ≤ q → 0 < d → p / d ≤ q / d.
Proof.
  intros Hpq Hd. unfold Qcdiv. apply Qcmult_le_compat_r; [done|].
  qc2q. apply Qlt_le_weak, Qinv_lt_0_compat. lra.
Qed.

Lemma fmin_le_l x y : fmin x y ≤ x.
Proof. unfold fmin. case_bool_decide; [apply Qcle_refl | qc_lra]. Qed.
Lemma fmin_le_r x y : fmin x y ≤ y.
Proof. unfold fmin. case_bool_decide; [done | apply Qcle_refl]. Qed.
Lemma fmin_cases x y : fmin x y = x ∨ fmin x y = y.
Proof. unfold fmin. case_bool_decide; auto. Qed.
Lemma fmin_glb x y z : z ≤ x → z ≤ y → z ≤ fmin x y.
Proof. unfold fmin. by case_bool_decide. Qed.
Lemma fmax_ge_l x y : x ≤ fmax x y.
Proof. unfold fmax. case_bool_decide; [done | apply Qcle_refl]. Qed.
Lemma fmax_ge_r x y : y ≤ fmax x y.
Proof. unfold fmax. case_bool_decide; [apply Qcle_refl | qc_lra]. Qed.
Lemma fmax_cases x y : fmax x y = x ∨ fmax x y = y.
Proof. unfold fmax. case_bool_decide; auto. Qed.
Lemma fmax_lub x y z : x ≤ z → y ≤ z → fmax x y ≤ z.
Proof. unfold fmax. by case_bool_decide. Qed.

Lemma fmax_comm x y : fmax x y = fmax y x.
Proof.
  unfold fmax. repeat case_bool_decide; try done.
  - by apply Qcle_antisym.
  - qc_lra.
Qed.
Lemma fmax_assoc x y z : fmax x (fmax y z) = fmax (fmax x y) z.
Proof. unfold fmax. repeat case_bool_decide; try done; qc_lra. Qed.
Lemma fmin_comm x y : fmin x y = fmin y x.
Proof.
  unfold fmin. repeat case_bool_decide; try done.
  - by apply Qcle_antisym.
  - qc_lra.
Qed.
Lemma fmin_assoc x y z : fmin x (fmin y z) = fmin (fmin x y) z.
Proof. unfold fmin. repeat case_bool_decide; try done; qc_lra. Qed.

(** ** The triangular membership function *)

Lemma trimf_pt_range a b c x : a ≤ b → b ≤ c → 0 ≤ trimf_pt a b c x ∧ trimf_pt a b c x ≤ 1.
Proof.
  intros Hab Hbc. unfold trimf_pt.
  case_bool_decide; [split; qc_lra|].
  destruct (bool_decide (b ≠ c) && bool_decide (b < x) && bool_decide (x < c)) eqn:E2.
  { apply andb_prop in E2 as [[_ ?%bool_decide_eq_true]%andb_prop ?%bool_decide_eq_true].
    split; [apply Qc_div_nonneg | apply Qc_div_le_1]; qc_lra. }
  destruct (bool_decide (a ≠ b) && bool_decide (a < x) && bool_decide (x < b)) eqn:E1.
  { apply andb_prop in E1 as [[_ ?%bool_decide_eq_true]%andb_prop ?%bool_decide_eq_true].
    split; [apply Qc_div_nonneg | apply Qc_div_le_1]; qc_lra. }
  split; qc_lra.
Qed.

Lemma trimf_pt_peak a b c : trimf_pt a b c b = 1.
Proof. unfold trimf_pt. by rewrite (bool_decide_eq_true_2 (b = b)). Qed.

Lemma trimf_pt_left a b c x : a ≤ b → b ≤ c → x ≤ a → x ≠ b → trimf_pt a b c x = 0.
Proof.
  intros Hab Hbc Hx Hne. unfold trimf_pt.
  rewrite (bool_decide_eq_false_2 (x = b)) by done.
  rewrite (bool_decide_eq_false_2 (b < x)) by (intros ?; qc_lra).
  rewrite (bool_decide_eq_false_2 (a < x)) by (intros ?; qc_lra).
  by rewrite !andb_false_r.
Qed.

Lemma trimf_pt_right a b c x : a ≤ b → b ≤ c → c ≤ x → x ≠ b → trimf_pt a b c x = 0.
Proof.
  intros Hab Hbc Hx Hne. unfold trimf_pt.
  rewrite (bool_decide_eq_false_2 (x = b)) by done.
  rewrite (bool_decide_eq_false_2 (x < c)) by (intros ?; qc_lra).
  rewrite (bool_decide_eq_false_2 (x < b)) by (intros ?; qc_lra).
  by rewrite !andb_false_r.
Qed.

(** Strictly between [a] and [b] the value is the rising line, strictly
    between [b] and [c] the falling line. *)
Lemma trimf_pt_rise a b c x : a < x → x < b → b ≤ c → trimf_pt a b c x = (x - a) / (b - a).
Proof.
  intros Hax Hxb Hbc. unfold trimf_pt.
  rewrite (bool_decide_eq_false_2 (x = b)) by (intros ?; qc_lra).
  rewrite (bool_decide_eq_false_2 (b < x)) by (intros ?; qc_lra).
  rewrite andb_false_r. simpl.
  rewrite (bool_decide_eq_true_2 (a ≠ b)) by (intros ?; qc_lra).
  by rewrite (bool_decide_eq_true_2 (a < x)), (bool_decide_eq_true_2 (x < b)).
Qed.

Lemma trimf_pt_fall a b c x : a ≤ b → b < x → x < c → trimf_pt a b c x = (c - x) / (c - b).
Proof.
  intros Hab Hbx Hxc. unfold trimf_pt.
  rewrite (bool_decide_eq_false_2 (x = b)) by (intros ?; qc_lra).
  rewrite (bool_decide_eq_true_2 (b ≠ c)) by (intros ?; qc_lra).
  by rewrite (bool_decide_eq_true_2 (b < x)), (bool_decide_eq_true_2 (x < c)).
Qed.

Lemma trimf_pt_mono_rise a b c x y :
  a ≤ b → b ≤ c → a ≤ x → x ≤ y → y ≤ b → trimf_pt a b c x ≤ trimf_pt a b c y.
Proof.
  intros Hab Hbc Hax Hxy Hyb.
  destruct (decide (y = b)) as [->|Hy].
  { rewrite trimf_pt_peak. by apply trimf_pt_range. }
  assert (y < b) by by apply Qc_lt_of_le_ne.
  destruct (decide (x = a)) as [->|Hx].
  { rewrite (trimf_pt_left a b c a); [by apply trimf_pt_range|done..|].
    intros ->. qc_lra. }
  assert (a < x) by by apply Qc_lt_of_le_ne.
  rewrite !trimf_pt_rise; [|done || qc_lra..].
  apply Qc_div_mono; qc_lra.
Qed.

Lemma trimf_pt_mono_fall a b c x y :
  a ≤ b → b ≤ c → b ≤ x → x ≤ y → y ≤ c → trimf_pt a b c y ≤ trimf_pt a b c x.
Proof.
  intros Hab Hbc Hbx Hxy Hyc.
  destruct (decide (x = b)) as [->|Hx].
  { rewrite trimf_pt_peak. by apply trimf_pt_range. }
  assert (b < x) by by apply Qc_lt_of_le_ne.
  destruct (decide (y = c)) as [->|Hy].
  { rewrite (trimf_pt_right a b c c); [by apply trimf_pt_range|done..|].
    intros ->. qc_lra. }
  assert (y < c) by by apply Qc_lt_of_le_ne.
  rewrite !trimf_pt_fall; [|done || qc_lra..].
  apply Qc_div_mono; qc_lra.
Qed.

(** C5: for breakpoints [a <= b <= c] the triangular function is zero at
    and below [a] (unless [a = b]) and at and above [c] (unless [b = c]),
    zero strictly outside [[a, c]] in any case, one at [b], non-decreasing
    on [[a, b]], non-increasing on [[b, c]], and always within [[0, 1]]. *)
Theorem trimf_shape (a b c : Qc) :
  a ≤ b → b ≤ c →
  (a ≠ b → ∀ x, x ≤ a → trimf_pt a b c x = 0) ∧
  (b ≠ c → ∀ x, c ≤ x → trimf_pt a b c x = 0) ∧
  (∀ x, x < a ∨ c < x → trimf_pt a b c x = 0) ∧
  trimf_pt a b c b = 1 ∧
  (∀ x y, a ≤ x → x ≤ y → y ≤ b → trimf_pt a b c x ≤ trimf_pt a b c y) ∧
  (∀ x y, b ≤ x → x ≤ y → y ≤ c → trimf_pt a b c y ≤ trimf_pt a b c x) ∧
  (∀ x, 0 ≤ trimf_pt a b c x ∧ trimf_pt a b c x ≤ 1).
Proof.
  intros Hab Hbc. repeat split.
  - intros Hne x Hx. apply trimf_pt_left; [done..|].
    intros ->. apply Hne. by apply Qcle_antisym.
  - intros Hne x Hx. apply trimf_pt_right; [done..|].
    intros ->. apply Hne. by apply Qcle_antisym.
  - intros x [Hx|Hx].
    + apply trimf_pt_left; [done | done | qc_lra | intros ->; qc_lra].
    + apply trimf_pt_right; [done | done | qc_lra | intros ->; qc_lra].
  - apply trimf_pt_peak.
  - intros. by apply trimf_pt_mono_rise.
  - intros. by apply trimf_pt_mono_fall.
  - by apply trimf_pt_range.
  - by apply trimf_pt_range.
Qed.

Lemma trimf_shape_witness :
  trimf_pt (Qc_of_Z 0) (Qc_of_Z 25) (Qc_of_Z 50) (Qc_of_Z 25) = 1.
Proof.
  assert (H1 : Qc_of_Z 0 ≤ Qc_of_Z 25) by (vm_compute; congruence).
  assert (H2 : Qc_of_Z 25 ≤ Qc_of_Z 50) by (vm_compute; congruence).
  destruct (trimf_shape _ _ _ H1 H2) as (_ & _ & _ & H & _). exact H.
Defined.

(** ** The verdict *)

(** C4: the verdict is High exactly when both scores are at least 50, and
    Low otherwise; the threshold is inclusive. *)
Theorem verdict_threshold (score_a score_b : Qc) :
  (verdict score_a score_b = High ↔ Qc_of_Z 50 ≤ score_a ∧ Qc_of_Z 50 ≤ score_b) ∧
  (verdict score_a score_b = Low ↔ ¬ (Qc_of_Z 50 ≤ score_a ∧ Qc_of_Z 50 ≤ score_b)) ∧
  verdict (Qc_of_Z 50) (Qc_of_Z 50) = High.
Proof.
  unfold verdict. split_and!.
  - destruct (decide (Qc_of_Z 50 ≤ score_a)), (decide (Qc_of_Z 50 ≤ score_b));
      rewrite ?bool_decide_eq_true_2, ?bool_decide_eq_false_2 by done;
      simpl; intuition congruence.
  - destruct (decide (Qc_of_Z 50 ≤ score_a)), (decide (Qc_of_Z 50 ≤ score_b));
      rewrite ?bool_decide_eq_true_2, ?bool_decide_eq_false_2 by done;
      simpl; intuition congruence.
  - by vm_compute.
Qed.

(** ** The height universe *)

Lemma Qc_of_Z_inj (n m : Z) : Qc_of_Z n = Qc_of_Z m → n = m.
Proof. intros H. apply (f_equal this) in H. simpl in H. by injection H. Qed.

Lemma Qc_of_Z_le (n m : Z) : Qc_of_Z n ≤ Qc_of_Z m ↔ (n ≤ m)%Z.
Proof. unfold Qcle. simpl. by rewrite <-Zle_Qle. Qed.

Lemma Qc_of_Z_lt (n m : Z) : Qc_of_Z n < Qc_of_Z m ↔ (n < m)%Z.
Proof. unfold Qclt. simpl. by rewrite <-Zlt_Qlt. Qed.

Lemma elem_of_arange_1 (start stop n : Z) :
  Qc_of_Z n ∈ arange start stop 1 ↔ (start ≤ n < stop)%Z.
Proof.
  unfold arange. rewrite list_elem_of_fmap.
  replace ((stop - start + 1 - 1) `div` 1)%Z with (stop - start)%Z
    by (rewrite Z.div_1_r; lia).
  split.
  - intros (i & Hn%Qc_of_Z_inj & Hi%elem_of_seq). lia.
  - intros Hn. exists (Z.to_nat (n - start)). split.
    + f_equal. lia.
    + apply elem_of_seq. lia.
Qed.

(** C10: the height universe is the integers 120..219; 220, the upper
    breakpoint of 'tall', is not in it; the largest universe point is 219,
    and there the degree of 'tall' is positive. *)
Theorem height_universe :
  universe height = (Qc_of_Z <$> seqZ 120 100) ∧
  (∀ n : Z, Qc_of_Z n ∈ universe height ↔ (120 ≤ n ≤ 219)%Z) ∧
  (Qc_of_Z 220 ∉ universe height) ∧
  amax (universe height) = Qc_of_Z 219 ∧
  ∃ tall, dict_get "tall" (terms height) = Some tall ∧
          tall !! 99%nat = Some (trimf_pt (Qc_of_Z 170) (Qc_of_Z 190) (Qc_of_Z 220) (Qc_of_Z 219)) ∧
          0 < interp_membership (universe height) tall (Qc_of_Z 219).
Proof.
  assert (Hu : universe height = arange 120 220 1) by reflexivity.
  split_and!.
  - rewrite Hu. unfold arange.
    change (Z.to_nat ((220 - 120 + 1 - 1) `div` 1)) with 100%nat.
    unfold seqZ. rewrite <-list_fmap_compose.
    change (Z.to_nat 100) with 100%nat.
    apply list_fmap_ext. intros _ i _. simpl. f_equal. lia.
  - intros n. rewrite Hu, elem_of_arange_1. lia.
  - rewrite Hu, elem_of_arange_1. lia.
  - apply Qc_is_canon. by vm_compute.
  - eexists. split; [reflexivity|]. split.
    + vm_compute. f_equal.
    + by vm_compute.
Qed.

(** ** Firing strength *)

Lemma aggregate_membership_min mv e ds :
  mapM (λ t, mv !! (label t.1, t.2)) (leaves e) = Some ds →
  ∃ s, aggregate_membership mv e = Some s ∧ s ∈ ds ∧ ∀ d, d ∈ ds → s ≤ d.
Proof.
  revert ds. induction e as [var key | l IHl r IHr];
    intros ds H; apply mapM_Some in H; cbn [leaves aggregate_membership] in *.
  - apply Forall2_cons_inv_l in H as (s & k & Hs & ->%Forall2_nil_inv_l & ->).
    exists s. simpl in Hs. split_and!; [done | set_solver |].
    intros d ->%list_elem_of_singleton. apply Qcle_refl.
  - apply Forall2_app_inv_l in H as (dl & dr & Hl%mapM_Some & Hr%mapM_Some & ->).
    destruct (IHl _ Hl) as (sl & -> & Hinl & Hminl).
    destruct (IHr _ Hr) as (sr & -> & Hinr & Hminr).
    exists (fmin sl sr). split_and!; [done | |].
    + destruct (fmin_cases sl sr) as [-> | ->]; set_solver.
    + intros d [Hd|Hd]%elem_of_app.
      * eapply Qcle_trans; [apply fmin_le_l | by apply Hminl].
      * eapply Qcle_trans; [apply fmin_le_r | by apply Hminr].
Qed.

(** C6: when every term a rule's antecedent refers to has a degree, the
    rule's firing strength is the minimum of those degrees: it is one of
    them and below all of them.  The first morphological rule fires at the
    minimum of the degrees of light skin, blonde hair and tall height. *)
Theorem firing_strength_is_min (mv : gmap (string * string) Qc) (r : Rule) (ds : list Qc) :
  mapM (λ t, mv !! (label t.1, t.2)) (leaves (antecedent r)) = Some ds →
  (∃ s, aggregate_membership mv (antecedent r) = Some s ∧
        s ∈ ds ∧ (∀ d, d ∈ ds → s ≤ d)) ∧
  (r = rule_skin_light →
   ∃ a b c, ds = [a; b; c] ∧
            mv !! ("skin_colour", "light") = Some a ∧
            mv !! ("hair_colour", "blonde") = Some b ∧
            mv !! ("height", "tall") = Some c ∧
            aggregate_membership mv (antecedent r) = Some (fmin (fmin a b) c)).
Proof.
  intros H. split; [by apply aggregate_membership_min|].
  intros ->. simpl in *.
  change (label skin_colour) with "skin_colour" in *.
  change (label hair_colour) with "hair_colour" in *.
  change (label height) with "height" in *.
  destruct (mv !! ("skin_colour", "light")) as [a|]; [|done].
  destruct (mv !! ("hair_colour", "blonde")) as [b|]; [|done].
  destruct (mv !! ("height", "tall")) as [c|]; [|done].
  simpl in H. injection H as <-. by exists a, b, c.
Qed.

(** ** The shared input slots *)

Lemma store_lookup {K} `{Countable K} (k k' : K) (o : option Qc) (m : gmap K Qc) :
  store k o m !! k' = if decide (k = k') then o else m !! k'.
Proof.
  unfold store. destruct o; case_decide; subst;
    by rewrite ?lookup_insert_eq, ?lookup_insert_ne, ?lookup_delete_eq,
               ?lookup_delete_ne.
Qed.

Lemma update_inputs_lookup (cur : gmap string Qc) (l : list FuzzyVariable)
    (inp : gmap string Qc) (k : string) :
  foldl (λ inp a, store (label a) (cur !! label a) inp) inp l !! k =
  if decide (k ∈ label <$> l) then cur !! k else inp !! k.
Proof.
  revert inp. induction l as [|a l IH]; intros inp; cbn [foldl].
  - rewrite decide_False; [done|]. rewrite fmap_nil. apply not_elem_of_nil.
  - rewrite IH, store_lookup, fmap_cons.
    destruct (decide (k ∈ label <$> l)) as [Hin|Hnin].
    + rewrite decide_True; [done|]. apply elem_of_cons. by right.
    + destruct (decide (label a = k)) as [<-|Hne].
      * rewrite decide_True; [done|]. apply elem_of_cons. by left.
      * rewrite decide_False; [done|]. by intros [?|?]%elem_of_cons.
Qed.

(** After [update_to_current] the simulation's input of each of its own
    antecedents is the shared slot; other entries are untouched. *)
Lemma update_to_current_lookup sim cur k :
  input (update_to_current sim cur) !! k =
  if decide (k ∈ label <$> antecedents (ctrl sim)) then cur !! k else input sim !! k.
Proof. apply update_inputs_lookup. Qed.

Lemma fuzz_all_ext vars inp inp' mv :
  (∀ a, a ∈ vars → inp !! label a = inp' !! label a) →
  fuzz_all vars inp mv = fuzz_all vars inp' mv.
Proof.
  revert mv. induction vars as [|a vars IH]; intros mv Hagree; simpl; [done|].
  rewrite <-(Hagree a) by set_solver.
  destruct (inp !! label a); [|done].
  apply IH. intros. apply Hagree. set_solver.
Qed.

Lemma crisp_output_ext c inp inp' :
  (∀ a, a ∈ antecedents c → inp !! label a = inp' !! label a) →
  crisp_output c inp = crisp_output c inp'.
Proof. intros H. unfold crisp_output. by rewrite (fuzz_all_ext _ inp inp'). Qed.

Lemma set_input_ok sim key var v cur :
  filter (λ a, label a = key) (antecedents (ctrl sim)) = [var] →
  set_input sim key v cur =
  (Ok (update_to_current sim (<[key := clip var v]> cur)), <[key := clip var v]> cur).
Proof. intros H. unfold set_input. by rewrite H. Qed.

(** [compute()] on a simulation that has not computed before leaves the
    shared slots alone, and what it stores under 'compatibility' (or the
    exception it raises) is [crisp_output] of the slots. *)
Lemma compute_spec sim c cur :
  ctrl sim = c → membership_value sim = ∅ → output sim = ∅ →
  match compute sim cur with
  | (Ok sim', cur') =>
      cur' = cur ∧ ctrl sim' = c ∧
      crisp_output c cur =
      match output sim' !! "compatibility" with
      | Some v => Ok v
      | None => Raise (KeyError "compatibility")
      end
  | (Raise e, cur') => cur' = cur ∧ crisp_output c cur = Raise e
  end.
Proof.
  intros <- Hmv Hout. unfold compute, crisp_output.
  cbn [ctrl input membership_value output update_to_current].
  rewrite Hmv, Hout.
  rewrite (fuzz_all_ext _ _ cur).
  2:{ intros a Ha. pose proof (update_to_current_lookup sim cur (label a)) as Hl.
      cbn [input update_to_current] in Hl. rewrite Hl.
      rewrite decide_True; [done|]. by apply list_elem_of_fmap_2. }
  destruct (fuzz_all _ _ _) as [mv|e]; [|done].
  destruct (compute_rules _ _ _) as [mv'|e]; [|done].
  destruct (defuzz_all _ _ _) as [out|e]; [|done].
  done.
Qed.

(** ** One control system at a time *)

Lemma set_inputs_spec sim inputs cur :
  match check_inputs (ctrl sim) inputs with
  | Raise e => (set_inputs sim inputs cur).1 = Raise e
  | Ok kvs =>
      ∃ sim', set_inputs sim inputs cur = (Ok sim', write_inputs kvs cur) ∧
              ctrl sim' = ctrl sim ∧
              membership_value sim' = membership_value sim ∧
              output sim' = output sim
  end.
Proof.
  revert sim cur. induction inputs as [|[k v] inputs IH]; intros sim cur.
  { simpl. by exists sim. }
  cbn [check_inputs set_inputs]. unfold bind, set_input.
  destruct (filter _ _) as [|var [|var' l]]; [done| |done].
  specialize (IH (update_to_current sim (<[k := clip var v]> cur))
                 (<[k := clip var v]> cur)).
  cbn [ctrl update_to_current] in IH.
  unfold clip in *.
  destruct (check_inputs (ctrl sim) inputs) as [kvs|e]; [|done].
  destruct IH as (sim' & -> & ? & ? & ?). by exists sim'.
Qed.

Lemma infer_spec c inputs cur :
  score (infer c inputs cur) =
  match check_inputs c inputs with
  | Raise e => Raise e
  | Ok kvs => crisp_output c (write_inputs kvs cur)
  end.
Proof.
  unfold infer, score, bind.
  pose proof (set_inputs_spec (ControlSystemSimulation c) inputs cur) as Hs.
  cbn [ctrl ControlSystemSimulation] in Hs.
  destruct (check_inputs c inputs) as [kvs|e].
  - destruct Hs as (sim & -> & Hc & Hmv & Hout).
    pose proof (compute_spec sim c (write_inputs kvs cur) Hc Hmv Hout) as Hcomp.
    destruct (compute sim _) as [[sim'|e] cur'].
    + destruct Hcomp as (-> & _ & ->). unfold get_output.
      by destruct (output sim' !! "compatibility").
    + by destruct Hcomp as (-> & ->).
  - destruct (set_inputs _ _ _) as [[?|?] ?]; simpl in *; congruence.
Qed.

(** ** The four control systems of app.py *)

Lemma morphological_antecedents :
  antecedents compatibility_morphological_ctrl = [skin_colour; hair_colour; height].
Proof. by vm_compute. Qed.
Lemma psychological_antecedents :
  antecedents compatibility_psychological_ctrl = [temperament].
Proof. by vm_compute. Qed.
Lemma medical_antecedents :
  antecedents compatibility_medical_ctrl = [blood_group].
Proof. by vm_compute. Qed.
Lemma salary_antecedents :
  antecedents compatibility_salary_ctrl = [educational_level].
Proof. by vm_compute. Qed.

Lemma input_skin_colour :
  filter (λ a, label a = "skin_colour") (antecedents compatibility_morphological_ctrl)
  = [skin_colour].
Proof. by vm_compute. Qed.
Lemma input_hair_colour :
  filter (λ a, label a = "hair_colour") (antecedents compatibility_morphological_ctrl)
  = [hair_colour].
Proof. by vm_compute. Qed.
Lemma input_height :
  filter (λ a, label a = "height") (antecedents compatibility_morphological_ctrl)
  = [height].
Proof. by vm_compute. Qed.
Lemma input_temperament :
  filter (λ a, label a = "temperament") (antecedents compatibility_psychological_ctrl)
  = [temperament].
Proof. by vm_compute. Qed.
Lemma input_blood_group :
  filter (λ a, label a = "blood_group") (antecedents compatibility_medical_ctrl)
  = [blood_group].
Proof. by vm_compute. Qed.
Lemma input_educational_level :
  filter (λ a, label a = "educational_level") (antecedents compatibility_salary_ctrl)
  = [educational_level].
Proof. by vm_compute. Qed.

Lemma morphological_consequents :
  consequents compatibility_morphological_ctrl = [compatibility].
Proof. by vm_compute. Qed.
Lemma psychological_consequents :
  consequents compatibility_psychological_ctrl = [compatibility].
Proof. by vm_compute. Qed.
Lemma medical_consequents :
  consequents compatibility_medical_ctrl = [compatibility].
Proof. by vm_compute. Qed.
Lemma salary_consequents :
  consequents compatibility_salary_ctrl = [compatibility].
Proof. by vm_compute. Qed.

(** When 'compatibility' is the consequent of the system, a [compute()]
    that returns has stored an output under that key. *)
Lemma compute_spec_compatibility sim c cur :
  ctrl sim = c → consequents c = [compatibility] →
  membership_value sim = ∅ → output sim = ∅ →
  match compute sim cur with
  | (Ok sim', cur') =>
      cur' = cur ∧
      ∃ v, output sim' !! "compatibility" = Some v ∧ crisp_output c cur = Ok v
  | (Raise e, cur') => cur' = cur ∧ crisp_output c cur = Raise e
  end.
Proof.
  intros Hc Hcons Hmv Hout.
  pose proof (compute_spec sim c cur Hc Hmv Hout) as H.
  destruct (compute sim cur) as [[sim'|e] cur'] eqn:E; [|done].
  destruct H as (-> & Hc' & H). split; [done|].
  unfold compute in E. cbn [ctrl input membership_value output update_to_current] in E.
  rewrite Hc, Hcons, Hout in E.
  destruct (fuzz_all _ _ _) as [mv|?]; [|done].
  destruct (compute_rules _ _ _) as [mv'|?]; [|done].
  cbn [defuzz_all] in E.
  destruct (defuzz_var compatibility mv') as [v|?]; [|done].
  injection E as <-. cbn [output] in *.
  change (label compatibility) with "compatibility" in *.
  exists v. rewrite lookup_insert_eq in H |- *. done.
Qed.

(** The program, read through [crisp_output]: the six clipped inputs are
    written to the shared slots, then the four systems are evaluated on the
    slots in order, and the first exception, if any, is the result. *)
Lemma compute_compatibility_score_spec sk ha he te bl ed cur :
  score (compute_compatibility_score sk ha he te bl ed cur) =
  let cur' := write_inputs
                [("skin_colour", clip skin_colour sk);
                 ("hair_colour", clip hair_colour ha);
                 ("height", clip height he);
                 ("temperament", clip temperament te);
                 ("blood_group", clip blood_group bl);
                 ("educational_level", clip educational_level ed)] cur in
  match crisp_output compatibility_morphological_ctrl cur' with
  | Raise e => Raise e
  | Ok m =>
      match crisp_output compatibility_psychological_ctrl cur' with
      | Raise e => Raise e
      | Ok p =>
          match crisp_output compatibility_medical_ctrl cur' with
          | Raise e => Raise e
          | Ok d =>
              match crisp_output compatibility_salary_ctrl cur' with
              | Raise e => Raise e
              | Ok s => Ok ((m + p + d + s) / Qc_of_Z 4)
              end
          end
      end
  end.
Proof.
  unfold compute_compatibility_score, score, bind.
  rewrite (set_input_ok _ _ skin_colour) by exact input_skin_colour.
  rewrite (set_input_ok _ _ hair_colour) by exact input_hair_colour.
  rewrite (set_input_ok _ _ height) by exact input_height.
  rewrite (set_input_ok _ _ temperament) by exact input_temperament.
  rewrite (set_input_ok _ _ blood_group) by exact input_blood_group.
  rewrite (set_input_ok _ _ educational_level) by exact input_educational_level.
  cbn [write_inputs foldl]. cbv zeta.
  set (cur' := <["educational_level" := _]> _).
  match goal with |- context [compute ?s cur'] =>
    pose proof (compute_spec_compatibility s compatibility_morphological_ctrl cur'
                  eq_refl morphological_consequents eq_refl eq_refl) as Hm;
    destruct (compute s cur') as [[msim|e] c1] end.
  2:{ by destruct Hm as (-> & ->). }
  destruct Hm as (-> & m & Hm & ->).
  match goal with |- context [compute ?s cur'] =>
    pose proof (compute_spec_compatibility s compatibility_psychological_ctrl cur'
                  eq_refl psychological_consequents eq_refl eq_refl) as Hp;
    destruct (compute s cur') as [[psim|e] c1] end.
  2:{ by destruct Hp as (-> & ->). }
  destruct Hp as (-> & p & Hp & ->).
  match goal with |- context [compute ?s cur'] =>
    pose proof (compute_spec_compatibility s compatibility_medical_ctrl cur'
                  eq_refl medical_consequents eq_refl eq_refl) as Hd;
    destruct (compute s cur') as [[dsim|e] c1] end.
  2:{ by destruct Hd as (-> & ->). }
  destruct Hd as (-> & d & Hd & ->).
  match goal with |- context [compute ?s cur'] =>
    pose proof (compute_spec_compatibility s compatibility_salary_ctrl cur'
                  eq_refl salary_consequents eq_refl eq_refl) as Hs;
    destruct (compute s cur') as [[ssim|e] c1] end.
  2:{ by destruct Hs as (-> & ->). }
  destruct Hs as (-> & s & Hs & ->).
  unfold get_output, ret, raise. by rewrite Hm, Hp, Hd, Hs.
Qed.

Lemma check_inputs_keys c inputs kvs :
  check_inputs c inputs = Ok kvs → kvs.*1 = inputs.*1.
Proof.
  revert kvs. induction inputs as [|[k v] inputs IH]; intros kvs; cbn [check_inputs].
  { by intros [= <-]. }
  destruct (filter _ _) as [|var [|??]]; [done| |done].
  destruct (check_inputs c inputs) as [kvs'|]; [|done].
  intros [= <-]. cbn. f_equal. by apply IH.
Qed.

Lemma write_inputs_lookup kvs (c1 c2 : gmap string Qc) k :
  c1 !! k = c2 !! k ∨ k ∈ kvs.*1 →
  write_inputs kvs c1 !! k = write_inputs kvs c2 !! k.
Proof.
  unfold write_inputs. revert c1 c2.
  induction kvs as [|[k' v] kvs IH]; intros c1 c2 H; cbn [foldl].
  { destruct H as [H|H]; [done|]. cbn in H. by apply elem_of_nil in H. }
  apply IH. destruct (decide (k' = k)) as [->|Hne].
  - left. by rewrite !lookup_insert_eq.
  - destruct H as [H|H].
    + left. by rewrite !lookup_insert_ne.
    + right. cbn in H. apply elem_of_cons in H as [H|H]; [congruence | done].
Qed.

Lemma infer_independent c inputs cur1 cur2 :
  complete c inputs →
  score (infer c inputs cur1) = score (infer c inputs cur2).
Proof.
  intros Hc. rewrite !infer_spec.
  destruct (check_inputs c inputs) as [kvs|e] eqn:E; [|done].
  apply crisp_output_ext. intros a Ha.
  apply write_inputs_lookup. right.
  rewrite (check_inputs_keys _ _ _ E).
  unfold complete in Hc. rewrite List.Forall_forall in Hc.
  by apply Hc, list_elem_of_In.
Qed.

Lemma label_skin_colour : label skin_colour = "skin_colour".
Proof. reflexivity. Qed.
Lemma label_hair_colour : label hair_colour = "hair_colour".
Proof. reflexivity. Qed.
Lemma label_height : label height = "height".
Proof. reflexivity. Qed.
Lemma label_temperament : label temperament = "temperament".
Proof. reflexivity. Qed.
Lemma label_blood_group : label blood_group = "blood_group".
Proof. reflexivity. Qed.
Lemma label_educational_level : label educational_level = "educational_level".
Proof. reflexivity. Qed.
Lemma label_compatibility : label compatibility = "compatibility".
Proof. reflexivity. Qed.

(** Looks a label up in a table written by [write_inputs]. *)
Ltac solve_slot :=
  rewrite ?label_skin_colour, ?label_hair_colour, ?label_height,
    ?label_temperament, ?label_blood_group, ?label_educational_level;
  unfold write_inputs; cbn [foldl];
  repeat first [rewrite lookup_insert_eq | rewrite lookup_insert_ne by done];
  done.

Ltac solve_complete :=
  unfold complete;
  rewrite ?morphological_antecedents, ?psychological_antecedents,
    ?medical_antecedents, ?salary_antecedents;
  repeat first [apply List.Forall_nil | apply List.Forall_cons];
  rewrite ?label_skin_colour, ?label_hair_colour, ?label_height,
    ?label_temperament, ?label_blood_group, ?label_educational_level;
  cbn [fmap list_fmap fst]; set_solver.

Lemma complete_morphological sk ha he :
  complete compatibility_morphological_ctrl
    [("skin_colour", sk); ("hair_colour", ha); ("height", he)].
Proof. solve_complete. Qed.
Lemma complete_psychological te :
  complete compatibility_psychological_ctrl [("temperament", te)].
Proof. solve_complete. Qed.
Lemma complete_medical bl :
  complete compatibility_medical_ctrl [("blood_group", bl)].
Proof. solve_complete. Qed.
Lemma complete_salary ed :
  complete compatibility_salary_ctrl [("educational_level", ed)].
Proof. solve_complete. Qed.

Lemma check_morphological sk ha he :
  check_inputs compatibility_morphological_ctrl
    [("skin_colour", sk); ("hair_colour", ha); ("height", he)] =
  Ok [("skin_colour", clip skin_colour sk); ("hair_colour", clip hair_colour ha);
      ("height", clip height he)].
Proof.
  cbn [check_inputs].
  by rewrite input_skin_colour, input_hair_colour, input_height.
Qed.
Lemma check_psychological te :
  check_inputs compatibility_psychological_ctrl [("temperament", te)] =
  Ok [("temperament", clip temperament te)].
Proof. cbn [check_inputs]. by rewrite input_temperament. Qed.
Lemma check_medical bl :
  check_inputs compatibility_medical_ctrl [("blood_group", bl)] =
  Ok [("blood_group", clip blood_group bl)].
Proof. cbn [check_inputs]. by rewrite input_blood_group. Qed.
Lemma check_salary ed :
  check_inputs compatibility_salary_ctrl [("educational_level", ed)] =
  Ok [("educational_level", clip educational_level ed)].
Proof. cbn [check_inputs]. by rewrite input_educational_level. Qed.

(** The program's outcome in terms of the four groups run one at a time. *)
Lemma score_by_groups (sk ha he te bl ed : Qc) (cur : gmap string Qc) :
  score (compute_compatibility_score sk ha he te bl ed cur) =
  match score (infer compatibility_morphological_ctrl
                 [("skin_colour", sk); ("hair_colour", ha); ("height", he)] cur) with
  | Raise e => Raise e
  | Ok m =>
      match score (infer compatibility_psychological_ctrl [("temperament", te)] cur) with
      | Raise e => Raise e
      | Ok p =>
          match score (infer compatibility_medical_ctrl [("blood_group", bl)] cur) with
          | Raise e => Raise e
          | Ok d =>
              match score (infer compatibility_salary_ctrl
                             [("educational_level", ed)] cur) with
              | Raise e => Raise e
              | Ok s => Ok ((m + p + d + s) / Qc_of_Z 4)
              end
          end
      end
  end.
Proof.
  rewrite compute_compatibility_score_spec, !infer_spec.
  rewrite check_morphological, check_psychological, check_medical, check_salary.
  cbv zeta.
  set (cur' := write_inputs _ cur).
  assert (Hm : crisp_output compatibility_morphological_ctrl cur' =
               crisp_output compatibility_morphological_ctrl
                 (write_inputs [("skin_colour", clip skin_colour sk);
                                ("hair_colour", clip hair_colour ha);
                                ("height", clip height he)] cur)).
  { apply crisp_output_ext. intros a. rewrite morphological_antecedents.
    intros [->|[->|[->|[]%elem_of_nil]%elem_of_cons]%elem_of_cons]%elem_of_cons;
      subst cur'; solve_slot. }
  assert (Hp : crisp_output compatibility_psychological_ctrl cur' =
               crisp_output compatibility_psychological_ctrl
                 (write_inputs [("temperament", clip temperament te)] cur)).
  { apply crisp_output_ext. intros a. rewrite psychological_antecedents.
    intros [->|[]%elem_of_nil]%elem_of_cons. subst cur'. solve_slot. }
  assert (Hd : crisp_output compatibility_medical_ctrl cur' =
               crisp_output compatibility_medical_ctrl
                 (write_inputs [("blood_group", clip blood_group bl)] cur)).
  { apply crisp_output_ext. intros a. rewrite medical_antecedents.
    intros [->|[]%elem_of_nil]%elem_of_cons. subst cur'. solve_slot. }
  assert (Hs : crisp_output compatibility_salary_ctrl cur' =
               crisp_output compatibility_salary_ctrl
                 (write_inputs [("educational_level", clip educational_level ed)] cur)).
  { apply crisp_output_ext. intros a. rewrite salary_antecedents.
    intros [->|[]%elem_of_nil]%elem_of_cons. subst cur'. solve_slot. }
  by rewrite Hm, Hp, Hd, Hs.
Qed.

(** C3: the overall score is the sum of the four per-group crisp scores
    divided by 4, each group score being what one simulation of that group
    returns for its share of the six inputs; if a group raises, the first
    such exception (morphological, psychological, medical, salary) is the
    outcome. *)
Theorem overall_is_mean (sk ha he te bl ed : Qc) (cur : gmap string Qc) :
  score (compute_compatibility_score sk ha he te bl ed cur) =
  match score (infer compatibility_morphological_ctrl
                 [("skin_colour", sk); ("hair_colour", ha); ("height", he)] cur) with
  | Raise e => Raise e
  | Ok m =>
      match score (infer compatibility_psychological_ctrl [("temperament", te)] cur) with
      | Raise e => Raise e
      | Ok p =>
          match score (infer compatibility_medical_ctrl [("blood_group", bl)] cur) with
          | Raise e => Raise e
          | Ok d =>
              match score (infer compatibility_salary_ctrl
                             [("educational_level", ed)] cur) with
              | Raise e => Raise e
              | Ok s => Ok ((m + p + d + s) / Qc_of_Z 4)
              end
          end
      end
  end.
Proof. apply score_by_groups. Qed.

(** C8: the outcome of an evaluation is a function of its arguments alone.
    Whatever earlier evaluations left in the shared input slots, the overall
    score (or the exception) is the same, and so is the outcome of one
    group's inference on a complete set of inputs; in particular, a second
    evaluation run on the state the first one left gives the same outcome. *)
Theorem evaluation_deterministic :
  (∀ sk ha he te bl ed cur1 cur2,
     score (compute_compatibility_score sk ha he te bl ed cur1) =
     score (compute_compatibility_score sk ha he te bl ed cur2)) ∧
  (∀ sk ha he te bl ed cur,
     score (compute_compatibility_score sk ha he te bl ed
              (compute_compatibility_score sk ha he te bl ed cur).2) =
     score (compute_compatibility_score sk ha he te bl ed cur)) ∧
  (∀ c inputs cur1 cur2,
     complete c inputs →
     score (infer c inputs cur1) = score (infer c inputs cur2)).
Proof.
  assert (Hccs : ∀ sk ha he te bl ed cur1 cur2,
     score (compute_compatibility_score sk ha he te bl ed cur1) =
     score (compute_compatibility_score sk ha he te bl ed cur2)).
  { intros. rewrite !score_by_groups.
    rewrite (infer_independent compatibility_morphological_ctrl
               [("skin_colour", sk); ("hair_colour", ha); ("height", he)] cur1 cur2)
      by apply complete_morphological.
    rewrite (infer_independent compatibility_psychological_ctrl
               [("temperament", te)] cur1 cur2)
      by apply complete_psychological.
    rewrite (infer_independent compatibility_medical_ctrl
               [("blood_group", bl)] cur1 cur2)
      by apply complete_medical.
    rewrite (infer_independent compatibility_salary_ctrl
               [("educational_level", ed)] cur1 cur2)
      by apply complete_salary.
    done. }
  split_and!; [done | by intros | apply infer_independent].
Qed.

Lemma evaluation_deterministic_witness :
  score (infer compatibility_psychological_ctrl [("temperament", Qc_of_Z 20)] ∅) =
  score (infer compatibility_psychological_ctrl [("temperament", Qc_of_Z 20)]
           {["temperament" := Qc_of_Z 70]}).
Proof.
  destruct evaluation_deterministic as (_ & _ & H).
  apply H. apply (bool_decide_unpack _). vm_compute. exact I.
Defined.

(** ** The refined universe *)

Lemma insert_unique_Forall (P : Qc → Prop) x l :
  P x → Forall P l → Forall P (insert_unique x l).
Proof.
  intros Hx. induction 1 as [|h t Hh Ht IH]; cbn [insert_unique].
  { by repeat constructor. }
  repeat case_bool_decide; repeat constructor; auto.
Qed.

Lemma insert_unique_elem x l u : u ∈ insert_unique x l ↔ u = x ∨ u ∈ l.
Proof.
  induction l as [|h t IH]; cbn [insert_unique].
  { rewrite list_elem_of_singleton. split; [auto|]. intros [?|?%elem_of_nil]; done. }
  repeat case_bool_decide; subst; rewrite ?elem_of_cons, ?IH; tauto.
Qed.

Lemma insert_unique_sorted x l :
  StronglySorted Qclt l → StronglySorted Qclt (insert_unique x l).
Proof.
  induction 1 as [|h t Ht IH Hh]; cbn [insert_unique].
  { repeat constructor. }
  case_bool_decide as Hlt.
  { constructor; [by constructor|]. constructor; [done|].
    eapply Forall_impl; [exact Hh|]. intros y Hy. by eapply Qclt_trans. }
  case_bool_decide as Heq; [by constructor|].
  constructor; [done|]. apply insert_unique_Forall; [|done].
  apply Qc_lt_of_le_ne; [by apply Qcnot_lt_le | congruence].
Qed.

Lemma union1d_sorted a b : StronglySorted Qclt (union1d a b).
Proof.
  unfold union1d. induction (a ++ b) as [|x l IH]; cbn [foldr]; [constructor|].
  by apply insert_unique_sorted.
Qed.

Lemma union1d_elem a b u : u ∈ union1d a b ↔ u ∈ a ∨ u ∈ b.
Proof.
  unfold union1d. rewrite <-elem_of_app.
  induction (a ++ b) as [|x l IH]; cbn [foldr]; [done|].
  rewrite insert_unique_elem, IH, elem_of_cons. tauto.
Qed.

Lemma union1d_Forall (P : Qc → Prop) a b :
  Forall P a → Forall P b → Forall P (union1d a b).
Proof.
  intros Ha Hb. apply List.Forall_forall. intros u Hu%list_elem_of_In.
  apply union1d_elem in Hu as [Hu|Hu]; apply list_elem_of_In in Hu.
  - rewrite List.Forall_forall in Ha. auto.
  - rewrite List.Forall_forall in Hb. auto.
Qed.

(** A crossing lies between the two universe points it is interpolated
    from. *)
Lemma crossing_between (x0 x1 m0 m1 y : Qc) :
  x0 ≤ x1 → m0 ≠ m1 → (m0 ≤ y ∧ y ≤ m1) ∨ (m1 ≤ y ∧ y ≤ m0) →
  x0 ≤ x0 + (y - m0) * (x1 - x0) / (m1 - m0) ∧
  x0 + (y - m0) * (x1 - x0) / (m1 - m0) ≤ x1.
Proof.
  intros Hx Hm Hy.
  set (E := (y - m0) * (x1 - x0) / (m1 - m0)).
  assert (HE : E * (m1 - m0) = (y - m0) * (x1 - x0)).
  { unfold E. field. intros H0. apply Hm. symmetry.
    apply Qcplus_inj_l with (- m0). by rewrite Qcplus_opp_r. }
  clearbody E. qc2q. nra.
Qed.

Lemma crossings_Forall (above : Qc → bool) (y lo hi : Qc) (pts : list (Qc * Qc)) :
  (∀ m0 m1, xorb (above m0) (above m1) = true →
            m0 ≠ m1 ∧ ((m0 ≤ y ∧ y ≤ m1) ∨ (m1 ≤ y ∧ y ≤ m0))) →
  StronglySorted Qclt pts.*1 →
  Forall (λ p, lo ≤ p.1 ∧ p.1 ≤ hi) pts →
  Forall (λ u, lo ≤ u ∧ u ≤ hi) (crossings above y pts).
Proof.
  intros Habove. induction pts as [|[x0 m0] rest IH]; intros Hs Hb; cbn [crossings].
  { constructor. }
  destruct rest as [|[x1 m1] rest']; [constructor|].
  apply List.Forall_app. split.
  - destruct (xorb _ _) eqn:E; [|constructor]. repeat constructor.
    + destruct (Habove _ _ E) as [Hne Hy].
      inversion Hs as [|?? _ Hlt]; subst. inversion Hlt as [|?? Hx01 _]; subst.
      inversion Hb as [|?? [Hlo _] _]; subst. cbn in *.
      destruct (crossing_between x0 x1 m0 m1 y) as [H1 _]; [qc_lra|done|done|].
      eapply Qcle_trans; [exact Hlo | exact H1].
    + destruct (Habove _ _ E) as [Hne Hy].
      inversion Hs as [|?? _ Hlt]; subst. inversion Hlt as [|?? Hx01 _]; subst.
      inversion Hb as [|?? _ Hb']; subst. inversion Hb' as [|?? [_ Hhi] _]; subst.
      cbn in *.
      destruct (crossing_between x0 x1 m0 m1 y) as [_ H2]; [qc_lra|done|done|].
      eapply Qcle_trans; [exact H2 | exact Hhi].
  - apply IH.
    + by inversion Hs.
    + by inversion Hb.
Qed.

Lemma zip_fst_Forall (P : Qc → Prop) (x m : list Qc) :
  Forall P x → Forall P (zip x m).*1.
Proof.
  intros H. revert m. induction H as [|h t Hh Ht IH]; intros [|m0 m]; cbn;
    constructor; auto.
Qed.

Lemma zip_snd_Forall (P : Qc → Prop) (x m : list Qc) :
  Forall P m → Forall P (zip x m).*2.
Proof.
  intros H. revert x. induction H as [|h t Hh Ht IH]; intros [|x0 x]; cbn;
    constructor; auto.
Qed.

Lemma zip_fst_sorted (x m : list Qc) :
  StronglySorted Qclt x → StronglySorted Qclt (zip x m).*1.
Proof.
  intros H. revert m. induction H as [|h t Ht IH Hh]; intros [|m0 m]; cbn;
    try constructor; auto.
  by apply zip_fst_Forall.
Qed.

Lemma interp_universe_Forall (x xmf : list Qc) (y lo hi : Qc) :
  StronglySorted Qclt x →
  Forall (λ u, lo ≤ u ∧ u ≤ hi) x →
  Forall (λ u, lo ≤ u ∧ u ≤ hi) (interp_universe x xmf y).
Proof.
  intros Hs Hb. unfold interp_universe.
  apply crossings_Forall.
  - intros m0 m1. case_bool_decide as Hy0.
    + intros Hx. destruct (bool_decide (y < m0)) eqn:E0, (bool_decide (y < m1)) eqn:E1;
        try done;
        repeat match goal with
        | H : bool_decide _ = true |- _ => apply bool_decide_eq_true in H
        | H : bool_decide _ = false |- _ => apply bool_decide_eq_false in H
        end.
      * apply Qcnot_lt_le in E1. split; [intros ->; by apply Qcle_not_lt in E1|].
        right. split; [done | by apply Qclt_le_weak].
      * apply Qcnot_lt_le in E0. split; [intros ->; by apply Qcle_not_lt in E0|].
        left. split; [done | by apply Qclt_le_weak].
    + intros Hx. destruct (bool_decide (y ≤ m0)) eqn:E0, (bool_decide (y ≤ m1)) eqn:E1;
        try done;
        repeat match goal with
        | H : bool_decide _ = true |- _ => apply bool_decide_eq_true in H
        | H : bool_decide _ = false |- _ => apply bool_decide_eq_false in H
        end.
      * apply Qcnot_le_lt in E1. split; [intros ->; by apply Qcle_not_lt in E0|].
        right. split; [by apply Qclt_le_weak | done].
      * apply Qcnot_le_lt in E0. split; [intros ->; by apply Qcle_not_lt in E1|].
        left. split; [by apply Qclt_le_weak | done].
  - by apply zip_fst_sorted.
  - apply List.Forall_forall. intros [u m] Hin.
    apply (zip_fst_Forall _ x xmf) in Hb. rewrite List.Forall_forall in Hb.
    apply Hb. apply List.in_map_iff. by exists (u, m).
Qed.

(** ** The centroid *)

Lemma eps_pos : 0 < eps.
Proof. by vm_compute. Qed.

Lemma Qc_div_le_of (p d b : Qc) : 0 < d → p ≤ b * d → p / d ≤ b.
Proof. intros. qc2q. apply Qle_shift_div_r; lra. Qed.

Lemma fmax_eps_pos sa : 0 < fmax sa eps.
Proof. eapply Qclt_le_trans; [apply eps_pos | apply fmax_ge_r]. Qed.

(** Each piece of the polygon has a non-negative area and its moment arm
    lies between its two abscissae. *)
Lemma trapezoid_bounds (x1 x2 y1 y2 hi moment area : Qc) :
  x1 ≤ x2 → 0 ≤ x1 → x2 ≤ hi → 0 ≤ y1 → 0 ≤ y2 → ¬ (y1 = 0 ∧ y2 = 0) →
  (if bool_decide (y1 = y2)
   then (Q2Qc (1 # 2) * (x1 + x2), (x2 - x1) * y1)
   else if bool_decide (y1 = 0) && bool_decide (y2 ≠ 0)
   then (Q2Qc (2 # 3) * (x2 - x1) + x1, Q2Qc (1 # 2) * (x2 - x1) * y2)
   else if bool_decide (y2 = 0) && bool_decide (y1 ≠ 0)
   then (Q2Qc (1 # 3) * (x2 - x1) + x1, Q2Qc (1 # 2) * (x2 - x1) * y1)
   else (Q2Qc (2 # 3) * (x2 - x1) * (y2 + Q2Qc (1 # 2) * y1) / (y1 + y2) + x1,
         Q2Qc (1 # 2) * (x2 - x1) * (y1 + y2))) = (moment, area) →
  0 ≤ area ∧ 0 ≤ moment ∧ moment ≤ hi.
Proof.
  intros Hx Hx1 Hx2 Hy1 Hy2 Hnz.
  case_bool_decide as E1.
  { intros [= <- <-]. subst y2. split_and!; qc_nra. }
  destruct (bool_decide (y1 = 0) && bool_decide (y2 ≠ 0)) eqn:E2.
  { intros [= <- <-]. split_and!; qc_nra. }
  destruct (bool_decide (y2 = 0) && bool_decide (y1 ≠ 0)) eqn:E3.
  { intros [= <- <-]. split_and!; qc_nra. }
  intros [= <- <-].
  assert (Hy1' : 0 < y1).
  { apply Qc_lt_of_le_ne; [done|]. intros <-.
    rewrite bool_decide_eq_true_2 in E2 by done. cbn in E2.
    apply bool_decide_eq_false in E2. apply E1. symmetry.
    destruct (decide (y2 = 0)); [done | by destruct E2]. }
  assert (Hy2' : 0 < y2).
  { apply Qc_lt_of_le_ne; [done|]. intros <-.
    rewrite bool_decide_eq_true_2 in E3 by done. cbn in E3.
    apply bool_decide_eq_false in E3. apply E3.
    intros ->. by apply Qclt_not_eq in Hy1'. }
  set (q := Q2Qc (2 # 3) * (x2 - x1) * (y2 + Q2Qc (1 # 2) * y1) / (y1 + y2)).
  assert (Hq0 : 0 ≤ q).
  { apply Qc_div_nonneg; qc_nra. }
  assert (Hq1 : q ≤ x2 - x1).
  { apply Qc_div_le_of; qc_nra. }
  clearbody q. split_and!; qc_nra.
Qed.

Lemma zip_Forall_fst (P : Qc → Prop) (x m : list Qc) :
  Forall P x → Forall (λ p, P p.1) (zip x m).
Proof.
  intros H. revert m. induction H as [|h t Hh Ht IH]; intros [|m0 m]; cbn;
    constructor; auto.
Qed.

Lemma zip_Forall_snd (P : Qc → Prop) (x m : list Qc) :
  Forall P m → Forall (λ p, P p.2) (zip x m).
Proof.
  intros H. revert x. induction H as [|h t Hh Ht IH]; intros [|x0 x]; cbn;
    constructor; auto.
Qed.

Lemma centroid_loop_inv (hi : Qc) (pts : list (Qc * Qc)) (sm sa : Qc) :
  StronglySorted Qclt pts.*1 →
  Forall (λ p, (0 ≤ p.1 ∧ p.1 ≤ hi) ∧ 0 ≤ p.2) pts →
  0 ≤ sa → 0 ≤ sm → sm ≤ hi * sa →
  let r := centroid_loop pts sm sa in 0 ≤ r.2 ∧ 0 ≤ r.1 ∧ r.1 ≤ hi * r.2.
Proof.
  revert sm sa. induction pts as [|[x1 y1] rest IH]; intros sm sa Hs Hb Hsa Hsm Hle.
  { cbn. done. }
  cbn [centroid_loop]. destruct rest as [|[x2 y2] rest']; [cbn; done|].
  assert (Hs' : StronglySorted Qclt ((x2, y2) :: rest').*1) by by inversion Hs.
  assert (Hb' : Forall (λ p, (0 ≤ p.1 ∧ p.1 ≤ hi) ∧ 0 ≤ p.2) ((x2, y2) :: rest'))
    by by inversion Hb.
  destruct (bool_decide (y1 = 0 ∧ y2 = 0) || bool_decide (x1 = x2)) eqn:Eskip.
  { by apply IH. }
  apply orb_false_elim in Eskip as [Hnz%bool_decide_eq_false _].
  destruct (if bool_decide (y1 = y2) then _ else _) as [moment area] eqn:E.
  inversion Hs as [|?? _ Hlt]; subst. inversion Hlt as [|?? Hx12 _]; subst.
  inversion Hb as [|?? [[Hx1 _] Hy1] Hb2]; subst.
  inversion Hb2 as [|?? [[_ Hx2] Hy2] _]; subst. cbn in *.
  destruct (trapezoid_bounds x1 x2 y1 y2 hi moment area) as (Ha & Hm0 & Hm1);
    [by apply Qclt_le_weak|done..|].
  apply IH; [done | done | qc_nra..].
Qed.

Lemma centroid_range (x mfx : list Qc) (hi : Qc) :
  0 ≤ hi →
  StronglySorted Qclt x →
  Forall (λ u, 0 ≤ u ∧ u ≤ hi) x →
  Forall (λ m, 0 ≤ m) mfx →
  0 ≤ centroid x mfx ∧ centroid x mfx ≤ hi.
Proof.
  intros Hhi Hs Hb Hm.
  assert (Hloop : ∀ r, r = centroid_loop (zip x mfx) 0 0 →
            0 ≤ r.1 / fmax r.2 eps ∧ r.1 / fmax r.2 eps ≤ hi).
  { intros r ->.
    destruct (centroid_loop_inv hi (zip x mfx) 0 0) as (Ha & Hm0 & Hm1).
    - by apply zip_fst_sorted.
    - apply Forall_and. split.
      + exact (zip_Forall_fst (λ u, 0 ≤ u ∧ u ≤ hi) x mfx Hb).
      + exact (zip_Forall_snd (λ m, 0 ≤ m) x mfx Hm).
    - apply Qcle_refl.
    - apply Qcle_refl.
    - qc_nra.
    - pose proof (fmax_eps_pos (centroid_loop (zip x mfx) 0 0).2) as HD.
      pose proof (fmax_ge_l (centroid_loop (zip x mfx) 0 0).2 eps) as HD'.
      split; [by apply Qc_div_nonneg|].
      apply Qc_div_le_of; [done|].
      revert HD HD' Ha Hm0 Hm1.
      generalize (fmax (centroid_loop (zip x mfx) 0 0).2 eps).
      generalize (centroid_loop (zip x mfx) 0 0).2.
      generalize (centroid_loop (zip x mfx) 0 0).1.
      intros. qc_nra. }
  unfold centroid.
  destruct x as [|x0 [|x1 x']].
  - destruct (centroid_loop _ _ _) as [sm sa] eqn:E. by apply (Hloop (sm, sa)).
  - destruct mfx as [|m0 mfx'].
    + destruct (centroid_loop _ _ _) as [sm sa] eqn:E. by apply (Hloop (sm, sa)).
    + inversion Hb as [|?? [Hx0 Hx0'] _]; subst. inversion Hm as [|?? Hm0 _]; subst.
      pose proof (fmax_eps_pos m0) as HD. pose proof (fmax_ge_l m0 eps) as HD'.
      split; [apply Qc_div_nonneg; [qc_nra | done]|].
      apply Qc_div_le_of; [done|].
      revert HD HD'. generalize (fmax m0 eps). intros. qc_nra.
  - destruct (centroid_loop _ _ _) as [sm sa] eqn:E. by apply (Hloop (sm, sa)).
Qed.

(** ** Range of the defuzzified output *)

Lemma zip_with_fmax_nonneg (out l : list Qc) :
  Forall (λ m, 0 ≤ m) out → Forall (λ m, 0 ≤ m) (zip_with fmax out l).
Proof.
  intros H. revert l. induction H as [|o out Ho Hout IH]; intros [|v l]; cbn;
    constructor; auto.
  eapply Qcle_trans; [exact Ho | apply fmax_ge_l].
Qed.

Lemma output_mf_nonneg (f : list Qc → Qc → list Qc) (cuts : list (list Qc * Qc))
    (init : list Qc) :
  Forall (λ m, 0 ≤ m) init →
  Forall (λ m, 0 ≤ m)
    (foldl (λ out '(mf, cut), zip_with fmax out (f mf cut)) init cuts).
Proof.
  revert init. induction cuts as [|[mf cut] cuts IH]; intros init Hinit; cbn [foldl].
  { done. }
  apply IH. by apply zip_with_fmax_nonneg.
Qed.

Lemma find_memberships_props (var : FuzzyVariable) mv (hi : Qc) :
  StronglySorted Qclt (universe var) →
  Forall (λ u, 0 ≤ u ∧ u ≤ hi) (universe var) →
  StronglySorted Qclt (find_memberships var mv).1.1 ∧
  Forall (λ u, 0 ≤ u ∧ u ≤ hi) (find_memberships var mv).1.1 ∧
  Forall (λ m, 0 ≤ m) (find_memberships var mv).1.2.
Proof.
  intros Hs Hb. unfold find_memberships. cbn [fst snd]. split_and!.
  - apply union1d_sorted.
  - apply union1d_Forall; [done|].
    induction (cut_terms var mv) as [|[mf cut] cuts IH]; [constructor|].
    cbn. apply List.Forall_app. split; [|exact IH].
    by apply interp_universe_Forall.
  - apply (output_mf_nonneg
             (λ mf cut, (λ u, fmin cut (interp_membership (universe var) mf u))
                          <$> union1d (universe var)
                                (cut_terms var mv ≫= λ '(mf, cut),
                                   interp_universe (universe var) mf cut))).
    apply List.Forall_forall. intros m Hin. apply List.in_map_iff in Hin as (? & <- & _).
    apply Qcle_refl.
Qed.

Lemma defuzz_var_range (var : FuzzyVariable) mv (hi v : Qc) :
  0 ≤ hi →
  StronglySorted Qclt (universe var) →
  Forall (λ u, 0 ≤ u ∧ u ≤ hi) (universe var) →
  defuzz_var var mv = Ok v → 0 ≤ v ∧ v ≤ hi.
Proof.
  intros Hhi Hs Hb.
  destruct (find_memberships_props var mv hi Hs Hb) as (Hs' & Hb' & Hm').
  unfold defuzz_var.
  destruct (find_memberships var mv) as [[u out] n]. cbn [fst snd] in *.
  case_bool_decide; [done|]. unfold defuzz.
  case_bool_decide; [done|]. intros [= <-].
  by apply centroid_range.
Qed.

Lemma compatibility_universe_sorted : StronglySorted Qclt (universe compatibility).
Proof. apply (bool_decide_unpack _). by vm_compute. Qed.

Lemma compatibility_universe_bounds :
  Forall (λ u, 0 ≤ u ∧ u ≤ Qc_of_Z 100) (universe compatibility).
Proof. apply (bool_decide_unpack _). by vm_compute. Qed.

(** What a control system with consequent 'compatibility' returns lies in
    the consequent's domain. *)
Lemma crisp_output_range c inp s :
  consequents c = [compatibility] →
  crisp_output c inp = Ok s → 0 ≤ s ∧ s ≤ Qc_of_Z 100.
Proof.
  intros Hc. unfold crisp_output. rewrite Hc.
  destruct (fuzz_all _ _ _) as [mv|]; [|done].
  destruct (compute_rules _ _ _) as [mv'|]; [|done].
  cbn [defuzz_all].
  destruct (defuzz_var compatibility mv') as [v|] eqn:E; [|done].
  rewrite label_compatibility, lookup_insert_eq. intros [= <-].
  eapply defuzz_var_range; [| apply compatibility_universe_sorted
                            | apply compatibility_universe_bounds | exact E].
  by vm_compute.
Qed.

(** ** Fuzzification *)

Lemma dict_get_None key d : key ∉ d.*1 → dict_get key d = None.
Proof.
  induction d as [|[k v] d IH]; cbn; [done|].
  intros [Hne Hnin]%not_elem_of_cons.
  rewrite bool_decide_eq_false_2 by congruence. by apply IH.
Qed.

Lemma dict_get_Some key d : key ∈ d.*1 → is_Some (dict_get key d).
Proof.
  induction d as [|[k v] d IH]; cbn.
  { by intros ?%elem_of_nil. }
  intros [->|Hin]%elem_of_cons.
  - by rewrite bool_decide_eq_true_2.
  - case_bool_decide; [done | by apply IH].
Qed.

Lemma fuzz_lookup_ne var v mv l k :
  l ≠ label var → fuzz var v mv !! (l, k) = mv !! (l, k).
Proof.
  unfold fuzz. revert mv.
  induction (terms var) as [|[k' mf] ts IH]; intros mv Hne; cbn [foldl]; [done|].
  rewrite IH by done. rewrite lookup_insert_ne; [done | congruence].
Qed.

Lemma fuzz_lookup var v mv k :
  NoDup (keys var) →
  fuzz var v mv !! (label var, k) =
  match degree var k v with
  | Some d => Some d
  | None => mv !! (label var, k)
  end.
Proof.
  unfold fuzz, degree, keys. revert mv.
  induction (terms var) as [|[k' mf] ts IH]; intros mv Hnd; cbn [foldl dict_get].
  { done. }
  cbn in Hnd. apply NoDup_cons in Hnd as [Hnin Hnd].
  rewrite IH by done. case_bool_decide as Hk.
  - subst k'. rewrite (dict_get_None k ts) by done. cbn.
    by rewrite lookup_insert_eq.
  - destruct (dict_get k ts); cbn; [done|].
    rewrite lookup_insert_ne; [done | congruence].
Qed.

Lemma fuzz_all_lookup vars inp mv mv' :
  NoDup (label <$> vars) →
  Forall (λ a, NoDup (keys a)) vars →
  fuzz_all vars inp mv = Ok mv' →
  (∀ a k, a ∈ vars →
     mv' !! (label a, k) =
     match inp !! label a ≫= degree a k with
     | Some d => Some d
     | None => mv !! (label a, k)
     end) ∧
  (∀ l k, l ∉ label <$> vars → mv' !! (l, k) = mv !! (l, k)).
Proof.
  revert mv. induction vars as [|a0 vars IH]; intros mv Hnd Hk; cbn [fuzz_all].
  { intros [= <-]. split; [by intros ?? ?%elem_of_nil | done]. }
  cbn in Hnd. apply NoDup_cons in Hnd as [Hnin Hnd].
  inversion Hk as [|?? Hk0 Hk']; subst.
  destruct (inp !! label a0) as [v0|] eqn:E0; [|done].
  intros Hf. destruct (IH _ Hnd Hk' Hf) as [IH1 IH2]. split.
  - intros a k [->|Ha]%elem_of_cons.
    + rewrite IH2 by done. rewrite fuzz_lookup by done. by rewrite E0.
    + rewrite IH1 by done.
      destruct (inp !! label a ≫= degree a k); [done|].
      apply fuzz_lookup_ne. intros Heq. apply Hnin. rewrite <-Heq.
      by apply list_elem_of_fmap_2.
  - intros l k [Hne Hl]%not_elem_of_cons.
    rewrite IH2 by done. by apply fuzz_lookup_ne.
Qed.

Lemma fuzz_all_Ok vars inp mv :
  Forall (λ a, is_Some (inp !! label a)) vars →
  ∃ mv', fuzz_all vars inp mv = Ok mv'.
Proof.
  intros H. revert mv. induction H as [|a vars [v Hv] _ IH]; intros mv; cbn.
  { by eexists. }
  rewrite Hv. apply IH.
Qed.

Lemma fuzz_all_Raise vars inp mv e :
  fuzz_all vars inp mv = Raise e →
  e = ValueError "All antecedents must have input values!" ∧
  ∃ a, a ∈ vars ∧ inp !! label a = None.
Proof.
  revert mv. induction vars as [|a vars IH]; intros mv; cbn; [done|].
  destruct (inp !! label a) eqn:E.
  - intros [-> (a' & ? & ?)]%IH. split; [done|]. exists a'. split; [|done].
    apply elem_of_cons. by right.
  - intros [= <-]. split; [done|]. exists a. split; [|done].
    apply elem_of_cons. by left.
Qed.

(** After fuzzification from an empty table, the membership value of an
    antecedent expression is its firing strength. *)
Lemma aggregate_strength (vars : list FuzzyVariable) inp mv e :
  (∀ a k, a ∈ vars → mv !! (label a, k) = inp !! label a ≫= degree a k) →
  Forall (λ t, t.1 ∈ vars) (leaves e) →
  aggregate_membership mv e = strength inp e.
Proof.
  intros Hmv. induction e as [var key | l IHl r IHr]; cbn [leaves]; intros Hl.
  - cbn. inversion Hl; subst. by apply Hmv.
  - apply List.Forall_app in Hl as [Hl1 Hl2]. cbn.
    by rewrite IHl, IHr.
Qed.

(** ** The rule loop *)

Lemma aggregate_ext mv mv' e :
  Forall (λ t, mv !! (label t.1, t.2) = mv' !! (label t.1, t.2)) (leaves e) →
  aggregate_membership mv e = aggregate_membership mv' e.
Proof.
  induction e as [var key | l IHl r IHr]; cbn [leaves]; intros Hl.
  - cbn. by inversion Hl.
  - apply List.Forall_app in Hl as [Hl1 Hl2]. cbn. by rewrite IHl, IHr.
Qed.

Lemma compute_rule_Ok r mv s :
  aggregate_membership mv (antecedent r) = Some s →
  compute_rule r mv =
  Ok (<[(label (consequent r).1, (consequent r).2) :=
        match mv !! (label (consequent r).1, (consequent r).2) with
        | None => s * 1
        | Some old => fmax (s * 1) old
        end]> mv).
Proof. intros H. unfold compute_rule. rewrite H. by destruct (mv !! _). Qed.

Lemma compute_rules_first rs mv :
  Forall (λ r, mv !! (label (consequent r).1, (consequent r).2) = None) rs →
  compute_rules true rs mv = compute_rules false rs mv.
Proof.
  destruct rs as [|r rs]; [done|]. intros H. inversion H as [|?? Hr _]; subst.
  cbn [compute_rules]. by rewrite delete_id.
Qed.

(** The invariant of the rule loop: the antecedents' degrees are left alone;
    every value stored for a consequent term is built with [fmax] from the
    weighted firing strengths, stored values only grow, and each rule's
    consequent term ends at least at the rule's firing strength. *)
Lemma compute_rules_inv (P : Qc → Prop) (vars : list FuzzyVariable)
    (inp : gmap string Qc) (rs : list Rule) (mv : gmap (string * string) Qc) :
  (∀ x y, P x → P y → P (fmax x y)) →
  Forall (λ r, Forall (λ t, t.1 ∈ vars) (leaves (antecedent r)) ∧
               (label (consequent r).1 ∉ label <$> vars) ∧
               ∃ s, strength inp (antecedent r) = Some s ∧ P (s * 1)) rs →
  (∀ a k, a ∈ vars → mv !! (label a, k) = inp !! label a ≫= degree a k) →
  (∀ l k v, l ∉ label <$> vars → mv !! (l, k) = Some v → P v) →
  ∃ mv', compute_rules false rs mv = Ok mv' ∧
    (∀ a k, a ∈ vars → mv' !! (label a, k) = inp !! label a ≫= degree a k) ∧
    (∀ l k v, l ∉ label <$> vars → mv' !! (l, k) = Some v → P v) ∧
    (∀ l k v, l ∉ label <$> vars → mv !! (l, k) = Some v →
              ∃ v', mv' !! (l, k) = Some v' ∧ v ≤ v') ∧
    Forall (λ r, ∃ s v, strength inp (antecedent r) = Some s ∧
                        mv' !! (label (consequent r).1, (consequent r).2) = Some v ∧
                        s * 1 ≤ v) rs.
Proof.
  intros HP Hrs. revert mv.
  induction Hrs as [|r rs (Hl & Hc & s & Hs & HPs) Hrs IH]; intros mv Hagree HPmv.
  { exists mv. split_and!; try done.
    intros l k v _ Hv. exists v. split; [done | apply Qcle_refl]. }
  cbn [compute_rules].
  assert (Hagg : aggregate_membership mv (antecedent r) = Some s).
  { rewrite <-Hs. by eapply aggregate_strength. }
  rewrite (compute_rule_Ok _ _ _ Hagg).
  set (ck := (label (consequent r).1, (consequent r).2)) in *.
  set (w := match mv !! ck with None => s * 1 | Some old => fmax (s * 1) old end).
  assert (HPw : P w).
  { unfold w. destruct (mv !! ck) as [old|] eqn:Eold; [|done].
    apply HP; [done|]. by eapply (HPmv _ _ _ Hc). }
  assert (Hsw : s * 1 ≤ w).
  { unfold w. destruct (mv !! ck); [apply fmax_ge_l | apply Qcle_refl]. }
  destruct (IH (<[ck := w]> mv)) as (mv' & Hrun & Hagree' & HP' & Hmono & Hcuts).
  { intros a k Ha. rewrite lookup_insert_ne; [by apply Hagree|].
    unfold ck. intros [= Heq _]. apply Hc. rewrite Heq. by apply list_elem_of_fmap_2. }
  { intros l k v Hl' Hv. destruct (decide (ck = (l, k))) as [Heq|Hne].
    - rewrite Heq, lookup_insert_eq in Hv. by injection Hv as <-.
    - rewrite lookup_insert_ne in Hv by done. by eapply HPmv. }
  exists mv'. split_and!; try done.
  - intros l k v Hl' Hv. destruct (decide (ck = (l, k))) as [Heq|Hne].
    + destruct (Hmono l k w Hl') as (v' & Hv' & Hle).
      { by rewrite Heq, lookup_insert_eq. }
      exists v'. split; [done|]. eapply Qcle_trans; [|exact Hle].
      unfold w. rewrite Heq, Hv. apply fmax_ge_r.
    + apply Hmono; [done|]. by rewrite lookup_insert_ne.
  - constructor; [|done].
    destruct (Hmono (label (consequent r).1) (consequent r).2 w Hc) as (v' & Hv' & Hle).
    { apply lookup_insert_eq. }
    exists s, v'. split_and!; [done..|]. by eapply Qcle_trans.
Qed.

(** ** The clipped output set *)

Lemma zip_with_fmap_same (f : Qc → Qc → Qc) (g h : Qc → Qc) (U : list Qc) :
  zip_with f (g <$> U) (h <$> U) = (λ u, f (g u) (h u)) <$> U.
Proof. induction U as [|u U IH]; cbn; [done | by rewrite IH]. Qed.

Lemma output_mf_pointwise (h : list Qc → Qc → Qc → Qc) (cuts : list (list Qc * Qc))
    (U : list Qc) (i : Qc → Qc) :
  foldl (λ out '(mf, cut), zip_with fmax out ((λ u, h mf cut u) <$> U))
        (i <$> U) cuts =
  (λ u, foldl (λ o '(mf, cut), fmax o (h mf cut u)) (i u) cuts) <$> U.
Proof.
  revert i. induction cuts as [|[mf cut] cuts IH]; intros i; cbn [foldl]; [done|].
  rewrite zip_with_fmap_same. apply (IH (λ u, fmax (i u) (h mf cut u))).
Qed.

Lemma fold_fmax_ge (g : list Qc * Qc → Qc) (cuts : list (list Qc * Qc)) (o : Qc) :
  o ≤ foldl (λ o t, fmax o (g t)) o cuts ∧
  Forall (λ t, g t ≤ foldl (λ o t, fmax o (g t)) o cuts) cuts.
Proof.
  revert o. induction cuts as [|t cuts IH]; intros o; cbn [foldl].
  { split; [apply Qcle_refl | constructor]. }
  destruct (IH (fmax o (g t))) as [H1 H2]. split.
  - eapply Qcle_trans; [apply fmax_ge_l | exact H1].
  - constructor; [|done]. eapply Qcle_trans; [apply fmax_ge_r | exact H1].
Qed.

Lemma fold_fmax_zero (g : list Qc * Qc → Qc) (cuts : list (list Qc * Qc)) :
  Forall (λ t, g t ≤ 0) cuts → foldl (λ o t, fmax o (g t)) 0 cuts = 0.
Proof.
  induction 1 as [|t cuts Ht _ IH]; cbn [foldl]; [done|].
  replace (fmax 0 (g t)) with 0; [done|].
  unfold fmax. case_bool_decide; [by apply Qcle_antisym | done].
Qed.

Lemma asum_ge (l : list Qc) (a : Qc) :
  Forall (λ m, 0 ≤ m) l → a ≤ foldl Qcplus a l.
Proof.
  intros H. revert a. induction H as [|m l Hm _ IH]; intros a; cbn [foldl].
  { apply Qcle_refl. }
  eapply Qcle_trans; [|apply IH]. qc_lra.
Qed.

Lemma asum_pos (l : list Qc) (m : Qc) :
  Forall (λ m, 0 ≤ m) l → m ∈ l → 0 < m → asum l ≠ 0.
Proof.
  unfold asum. intros Hl Hin Hm.
  assert (H : ∀ a, 0 ≤ a → 0 < foldl Qcplus a l).
  { induction Hl as [|m' l Hm' Hl IH]; [by apply elem_of_nil in Hin|].
    intros a Ha. cbn [foldl]. apply elem_of_cons in Hin as [<-|Hin].
    - eapply Qclt_le_trans; [|by apply asum_ge]. qc_lra.
    - apply IH; [done | qc_lra]. }
  intros Heq. specialize (H 0 (Qcle_refl 0)). rewrite Heq in H.
  by apply Qclt_not_eq in H.
Qed.

Lemma asum_zeros (U : list Qc) : asum ((λ _, 0) <$> U) = 0.
Proof.
  unfold asum. induction U as [|u U IH]; cbn; [done|]. by rewrite Qcplus_0_l.
Qed.

Lemma foldl_pointwise {A B} (f g : A → B → A) (a : A) (l : list B) :
  (∀ a b, f a b = g a b) → foldl f a l = foldl g a l.
Proof.
  intros H. revert a. induction l as [|b l IH]; intros a; cbn; [done|].
  by rewrite H, IH.
Qed.

(** The output set written as one expression per universe point. *)
Lemma find_memberships_output var mv :
  (find_memberships var mv).1.2 =
  (λ u, foldl (λ o '(mf, cut),
                 fmax o (fmin cut (interp_membership (universe var) mf u)))
              0 (cut_terms var mv))
  <$> (find_memberships var mv).1.1.
Proof.
  unfold find_memberships. cbn [fst snd].
  apply (output_mf_pointwise
           (λ mf cut u, fmin cut (interp_membership (universe var) mf u))).
Qed.

(** If every cut is zero the output set is empty and defuzzification
    raises. *)
Lemma defuzz_var_zero var mv :
  cut_terms var mv ≠ [] →
  Forall (λ t, t.2 = 0) (cut_terms var mv) →
  defuzz_var var mv = Raise (ValueError "Crisp output cannot be calculated.").
Proof.
  intros Hne Hz. pose proof (find_memberships_output var mv) as Hout.
  unfold defuzz_var.
  assert (Hn : (find_memberships var mv).2 = length (cut_terms var mv)) by done.
  destruct (find_memberships var mv) as [[u out] n]. cbn [fst snd] in *. subst n.
  rewrite bool_decide_eq_false_2 by by destruct (cut_terms var mv).
  unfold defuzz. rewrite bool_decide_eq_true_2; [done|].
  set (g := λ (x : Qc) (t : list Qc * Qc),
              let '(mf, cut) := t in
              fmin cut (interp_membership (universe var) mf x)).
  assert (Hform : out = (λ x, foldl (λ o t, fmax o (g x t)) 0 (cut_terms var mv)) <$> u).
  { rewrite Hout. apply list_fmap_ext. intros _ x _.
    apply foldl_pointwise. by intros o [??]. }
  rewrite Hform. erewrite list_fmap_ext; [apply asum_zeros|].
  intros _ x _. cbv beta. apply (fold_fmax_zero (g x)).
  eapply Forall_impl; [exact Hz|]. intros [mf cut]; cbn. intros ->.
  apply fmin_le_l.
Qed.

(** If some term is cut above zero and has a positive degree at a universe
    point, defuzzification returns. *)
Lemma defuzz_var_pos var mv mf cut u :
  (mf, cut) ∈ cut_terms var mv → 0 < cut →
  u ∈ universe var → 0 < interp_membership (universe var) mf u →
  ∃ v, defuzz_var var mv = Ok v.
Proof.
  intros Hin Hcut Hu Hmf. pose proof (find_memberships_output var mv) as Hout.
  unfold defuzz_var.
  assert (Hn : (find_memberships var mv).2 = length (cut_terms var mv)) by done.
  assert (HU : u ∈ (find_memberships var mv).1.1).
  { unfold find_memberships. cbn [fst snd]. apply union1d_elem. by left. }
  destruct (find_memberships var mv) as [[U out] n]. cbn [fst snd] in *. subst n.
  rewrite bool_decide_eq_false_2.
  2:{ destruct (cut_terms var mv); [by apply elem_of_nil in Hin | done]. }
  unfold defuzz. rewrite bool_decide_eq_false_2; [by eexists|].
  set (g := λ (x : Qc) (t : list Qc * Qc),
              let '(mf, cut) := t in
              fmin cut (interp_membership (universe var) mf x)).
  assert (Hform : out = (λ x, foldl (λ o t, fmax o (g x t)) 0 (cut_terms var mv)) <$> U).
  { rewrite Hout. apply list_fmap_ext. intros _ x _.
    apply foldl_pointwise. by intros o [??]. }
  eapply (asum_pos _ (foldl (λ o t, fmax o (g u t)) 0 (cut_terms var mv))).
  - rewrite Hform. apply List.Forall_forall.
    intros m (x & <- & _)%List.in_map_iff.
    apply (fold_fmax_ge (g x)).
  - rewrite Hform.
    by apply (list_elem_of_fmap_2
                (λ x, foldl (λ o t, fmax o (g x t)) 0 (cut_terms var mv))).
  - destruct (fold_fmax_ge (g u) (cut_terms var mv) 0) as [_ Hall].
    rewrite List.Forall_forall in Hall.
    eapply Qclt_le_trans; [|apply (Hall (mf, cut)); by apply list_elem_of_In].
    cbn. unfold fmin. by case_bool_decide.
Qed.

(** ** Degrees are non-negative *)

Lemma interp_segment_nonneg (x0 x1 y0 y1 xx : Qc) :
  x0 ≤ xx → xx < x1 → 0 ≤ y0 → 0 ≤ y1 →
  0 ≤ y0 + (y1 - y0) / (x1 - x0) * (xx - x0).
Proof.
  intros H0 H1 Hy0 Hy1.
  set (q := (y1 - y0) / (x1 - x0)).
  assert (Hq : q * (x1 - x0) = y1 - y0).
  { unfold q. field. intros Hz.
    assert (x1 = x0) as ->.
    { apply Qcplus_inj_l with (- x0). by rewrite Qcplus_opp_r. }
    eapply Qclt_not_le; [exact H1 | exact H0]. }
  clearbody q.
  destruct (Qclt_le_dec q 0) as [Hneg|Hpos]; qc_nra.
Qed.

Lemma interp_in_nonneg (xx : Qc) (pts : list (Qc * Qc)) (v : Qc) :
  StronglySorted Qclt pts.*1 →
  Forall (λ p, 0 ≤ p.2) pts →
  match pts with [] => True | p :: _ => p.1 ≤ xx end →
  interp_in xx pts = Some v → 0 ≤ v.
Proof.
  induction pts as [|[x0 y0] rest IH]; intros Hs Hb Hx; cbn [interp_in]; [done|].
  destruct rest as [|[x1 y1] rest'].
  { case_bool_decide; [|done]. intros [= <-]. by inversion Hb. }
  inversion Hb as [|?? Hy0 Hb']; subst. inversion Hb' as [|?? Hy1 _]; subst.
  cbn in Hx, Hy0, Hy1.
  case_bool_decide as Hlt.
  - intros [= <-]. by apply interp_segment_nonneg.
  - apply IH; [by inversion Hs | done | cbn; by apply Qcnot_lt_le].
Qed.

Lemma interp_membership_nonneg (x xmf : list Qc) (xx : Qc) :
  StronglySorted Qclt x → Forall (λ m, 0 ≤ m) xmf →
  0 ≤ interp_membership x xmf xx.
Proof.
  intros Hs Hm. unfold interp_membership, interp.
  destruct x as [|x0 x']; [apply Qcle_refl|].
  case_bool_decide as Hlt; [apply Qcle_refl|].
  destruct (interp_in xx (zip (x0 :: x') xmf)) as [v|] eqn:E; [|apply Qcle_refl].
  cbn. eapply interp_in_nonneg; [| |  | exact E].
  - by apply zip_fst_sorted.
  - exact (zip_Forall_snd (λ m, 0 ≤ m) (x0 :: x') xmf Hm).
  - destruct xmf as [|m0 xmf']; [done|]. cbn. by apply Qcnot_lt_le.
Qed.

Lemma dict_get_elem key d mf : dict_get key d = Some mf → (key, mf) ∈ d.
Proof.
  induction d as [|[k v] d IH]; cbn; [done|].
  case_bool_decide as Hk.
  - intros [= <-]. subst. apply elem_of_cons. by left.
  - intros H. apply elem_of_cons. right. by apply IH.
Qed.

Lemma degree_nonneg (a : FuzzyVariable) key v d :
  StronglySorted Qclt (universe a) →
  Forall (λ t, Forall (λ m, 0 ≤ m) t.2) (terms a) →
  degree a key v = Some d → 0 ≤ d.
Proof.
  intros Hs Hm. unfold degree.
  destruct (dict_get key (terms a)) as [mf|] eqn:E; [|done].
  cbn. intros [= <-]. apply interp_membership_nonneg; [done|].
  apply dict_get_elem in E. rewrite List.Forall_forall in Hm.
  by apply (Hm (key, mf)), list_elem_of_In.
Qed.

Lemma strength_nonneg (inp : gmap string Qc) (e : TermAggregate) s :
  Forall (λ t, StronglySorted Qclt (universe t.1) ∧
               Forall (λ t', Forall (λ m, 0 ≤ m) t'.2) (terms t.1)) (leaves e) →
  strength inp e = Some s → 0 ≤ s.
Proof.
  revert s. induction e as [var key | l IHl r IHr]; intros s; cbn [leaves strength].
  - intros Hl. inversion Hl as [|?? [Hs Hm] _]; subst. cbn in *.
    destruct (inp !! label var) as [v|]; [|done]. cbn.
    by apply degree_nonneg.
  - intros [Hl Hr]%List.Forall_app.
    destruct (strength inp l) as [x|]; [|done].
    destruct (strength inp r) as [y|]; [|done].
    intros [= <-]. apply fmin_glb; auto.
Qed.

Lemma strength_Some (inp : gmap string Qc) (e : TermAggregate) :
  Forall (λ t, is_Some (inp !! label t.1) ∧ t.2 ∈ keys t.1) (leaves e) →
  is_Some (strength inp e).
Proof.
  induction e as [var key | l IHl r IHr]; cbn [leaves strength].
  - intros Hl. inversion Hl as [|?? [[v Hv] Hk] _]; subst. cbn in *.
    rewrite Hv. cbn. unfold degree.
    destruct (dict_get_Some key (terms var) Hk) as [mf ->]. by eexists.
  - intros [Hl Hr]%List.Forall_app.
    destruct (IHl Hl) as [x ->], (IHr Hr) as [y ->]. by eexists.
Qed.

(** ** The two outcomes of one control system *)

Lemma leaves_in_antecedents c r t :
  r ∈ rules c → t ∈ leaves (antecedent r) → t.1 ∈ antecedents c.
Proof.
  intros Hr Ht. unfold antecedents. apply elem_of_remove_dups.
  apply list_elem_of_bind. exists r. split; [|done].
  by apply list_elem_of_fmap_2.
Qed.

Lemma consequent_in_consequents c r :
  r ∈ rules c → (consequent r).1 ∈ consequents c.
Proof.
  intros Hr. unfold consequents. apply elem_of_remove_dups.
  by apply (list_elem_of_fmap_2 (λ r, (consequent r).1)).
Qed.

Lemma cut_terms_elem var mv mf v :
  (mf, v) ∈ cut_terms var mv ↔
  ∃ k, (k, mf) ∈ terms var ∧ mv !! (label var, k) = Some v.
Proof.
  unfold cut_terms. rewrite list_elem_of_omap. split.
  - intros ([k mf'] & Hin & Heq). destruct (mv !! (label var, k)) eqn:E; [|done].
    cbn in Heq. injection Heq as <- <-. by exists k.
  - intros (k & Hin & Hv). exists (k, mf). split; [done|]. by rewrite Hv.
Qed.

Lemma compatibility_terms_positive :
  Forall (λ t, Exists (λ u, 0 < interp_membership (universe compatibility) t.2 u)
                 (universe compatibility)) (terms compatibility).
Proof. apply (bool_decide_unpack _). by vm_compute. Qed.

Lemma crisp_output_cases c inp :
  well_formed c → consequents c = [compatibility] →
  Forall sampled_ok (antecedents c) →
  Forall (λ a, is_Some (inp !! label a)) (antecedents c) →
  (Forall (λ r, strength inp (antecedent r) = Some 0) (rules c) →
   crisp_output c inp = Raise (ValueError "Crisp output cannot be calculated.")) ∧
  (¬ Forall (λ r, strength inp (antecedent r) = Some 0) (rules c) →
   ∃ s, crisp_output c inp = Ok s ∧ 0 ≤ s ∧ s ≤ Qc_of_Z 100).
Proof.
  intros (Hnd & Hndc & Hkeys & Hrules) Hcons Hsamp Hinp.
  destruct (fuzz_all_Ok (antecedents c) inp ∅ Hinp) as [mv0 Hfuzz].
  destruct (fuzz_all_lookup _ _ _ _ Hnd Hkeys Hfuzz) as [Hagree Hother].
  assert (Hagree0 : ∀ a k, a ∈ antecedents c →
            mv0 !! (label a, k) = inp !! label a ≫= degree a k).
  { intros a k Ha. rewrite Hagree by done.
    by destruct (inp !! label a ≫= degree a k). }
  assert (Hcv : ∀ r, r ∈ rules c → (consequent r).1 = compatibility).
  { intros r Hr%consequent_in_consequents. rewrite Hcons in Hr.
    by apply list_elem_of_singleton in Hr. }
  rewrite List.Forall_forall in Hrules, Hinp, Hsamp.
  assert (Hfacts : ∀ r, r ∈ rules c →
            Forall (λ t, t.1 ∈ antecedents c) (leaves (antecedent r)) ∧
            (label (consequent r).1 ∉ label <$> antecedents c) ∧
            ∃ s, strength inp (antecedent r) = Some s ∧ 0 ≤ s).
  { intros r Hr. destruct (Hrules r) as (Hlab & Hkey & Hleaves);
      [by apply list_elem_of_In|].
    assert (Hl : Forall (λ t, t.1 ∈ antecedents c) (leaves (antecedent r))).
    { apply List.Forall_forall. intros t Ht%list_elem_of_In.
      by eapply leaves_in_antecedents. }
    split_and!; [done..|].
    destruct (strength_Some inp (antecedent r)) as [s Hs].
    { rewrite List.Forall_forall in Hl, Hleaves. apply List.Forall_forall.
      intros t Ht. split; [|by apply Hleaves].
      apply Hinp, list_elem_of_In. by apply Hl. }
    exists s. split; [done|]. eapply strength_nonneg; [|exact Hs].
    rewrite List.Forall_forall in Hl. apply List.Forall_forall.
    intros t Ht. apply Hsamp, list_elem_of_In. by apply Hl. }
  assert (Hfirst : compute_rules true (rules c) mv0 = compute_rules false (rules c) mv0).
  { apply compute_rules_first, List.Forall_forall. intros r Hr%list_elem_of_In.
    rewrite Hother; [done|]. by apply Hfacts. }
  assert (Hr0 : ∃ r0, r0 ∈ rules c).
  { destruct (rules c) as [|r0 rs] eqn:E.
    - unfold consequents in Hcons. by rewrite E in Hcons.
    - exists r0. apply elem_of_cons. by left. }
  destruct Hr0 as [r0 Hr0].
  assert (Hlc : label compatibility ∉ label <$> antecedents c).
  { rewrite <-(Hcv r0 Hr0). by apply Hfacts. }
  assert (Hterm : ∀ r, r ∈ rules c →
            ∃ mf, ((consequent r).2, mf) ∈ terms compatibility).
  { intros r Hr. destruct (Hrules r) as (_ & Hkey & _); [by apply list_elem_of_In|].
    rewrite (Hcv r Hr) in Hkey. unfold keys in Hkey.
    apply list_elem_of_fmap in Hkey as ([k mf] & -> & Hin). by exists mf. }
  split.
  - intros Hzero. rewrite List.Forall_forall in Hzero.
    destruct (compute_rules_inv (λ v, v = 0) (antecedents c) inp (rules c) mv0)
      as (mv1 & Hrun & _ & HP & _ & Hcuts).
    + intros x y -> ->. unfold fmax. by case_bool_decide.
    + apply List.Forall_forall. intros r Hr%list_elem_of_In.
      destruct (Hfacts r Hr) as (? & ? & _). split_and!; [done..|].
      exists 0. split; [by apply Hzero, list_elem_of_In|]. by rewrite Qcmult_0_l.
    + done.
    + intros l k v Hl. by rewrite Hother.
    + unfold crisp_output. rewrite Hfuzz, Hfirst, Hrun, Hcons. cbn [defuzz_all].
      rewrite defuzz_var_zero; [done| |].
      * rewrite List.Forall_forall in Hcuts.
        destruct (Hcuts r0) as (s & v & _ & Hv & _); [by apply list_elem_of_In|].
        destruct (Hterm r0 Hr0) as [mf Hmf]. rewrite (Hcv r0 Hr0) in Hv.
        assert (Hin : (mf, v) ∈ cut_terms compatibility mv1).
        { apply cut_terms_elem. by exists (consequent r0).2. }
        intros Heq. rewrite Heq in Hin. by apply elem_of_nil in Hin.
      * apply List.Forall_forall. intros [mf v] Hin%list_elem_of_In.
        apply cut_terms_elem in Hin as (k & _ & Hv). cbn.
        by eapply HP.
  - intros Hnz. apply not_Forall_Exists in Hnz; [|apply _].
    apply List.Exists_exists in Hnz as (r & Hr%list_elem_of_In & Hne).
    destruct (Hfacts r Hr) as (_ & _ & s & Hs & Hs0).
    assert (Hspos : 0 < s).
    { apply Qc_lt_of_le_ne; [done|]. intros <-. by apply Hne. }
    destruct (compute_rules_inv (λ v, 0 ≤ v) (antecedents c) inp (rules c) mv0)
      as (mv1 & Hrun & _ & _ & _ & Hcuts).
    + intros x y Hx _. eapply Qcle_trans; [exact Hx | apply fmax_ge_l].
    + apply List.Forall_forall. intros r' Hr'%list_elem_of_In.
      destruct (Hfacts r' Hr') as (? & ? & s' & Hs' & Hs0'). split_and!; [done..|].
      exists s'. split; [done|]. by rewrite Qcmult_1_r.
    + done.
    + intros l k v Hl. by rewrite Hother.
    + rewrite List.Forall_forall in Hcuts.
      destruct (Hcuts r) as (s' & v & Hs' & Hv & Hle); [by apply list_elem_of_In|].
      rewrite Hs in Hs'. injection Hs' as <-. rewrite Qcmult_1_r in Hle.
      destruct (Hterm r Hr) as [mf Hmf]. rewrite (Hcv r Hr) in Hv.
      pose proof compatibility_terms_positive as Hpos.
      rewrite List.Forall_forall in Hpos.
      specialize (Hpos ((consequent r).2, mf)). cbn in Hpos.
      assert (Hex := Hpos (proj1 (list_elem_of_In _ _) Hmf)).
      apply List.Exists_exists in Hex as (u & Hu%list_elem_of_In & Hdeg).
      destruct (defuzz_var_pos compatibility mv1 mf v u) as [v' Hv']; try done.
      { apply cut_terms_elem. by exists (consequent r).2. }
      { exact (Qclt_le_trans _ _ _ Hspos Hle). }
      assert (Hout : crisp_output c inp = Ok v').
      { unfold crisp_output. rewrite Hfuzz, Hfirst, Hrun, Hcons. cbn [defuzz_all].
        by rewrite Hv', label_compatibility, lookup_insert_eq. }
      exists v'. split; [done|]. by eapply crisp_output_range.
Qed.

Lemma write_inputs_is_Some kvs (m : gmap string Qc) k :
  is_Some (m !! k) ∨ k ∈ kvs.*1 → is_Some (write_inputs kvs m !! k).
Proof.
  unfold write_inputs. revert m.
  induction kvs as [|[k' v] kvs IH]; intros m H; cbn [foldl].
  { destruct H as [H|H]; [done|]. cbn in H. by apply elem_of_nil in H. }
  apply IH. destruct (decide (k' = k)) as [->|Hne].
  - left. rewrite lookup_insert_eq. by eexists.
  - destruct H as [H|H].
    + left. by rewrite lookup_insert_ne.
    + right. cbn in H. apply elem_of_cons in H as [H|H]; [congruence | done].
Qed.

Lemma infer_cases c inputs kvs cur :
  well_formed c → consequents c = [compatibility] →
  Forall sampled_ok (antecedents c) →
  complete c inputs → check_inputs c inputs = Ok kvs →
  (Forall (λ s, s = Some 0) (firing c inputs) →
   score (infer c inputs cur) =
   Raise (ValueError "Crisp output cannot be calculated.")) ∧
  (¬ Forall (λ s, s = Some 0) (firing c inputs) →
   ∃ s, score (infer c inputs cur) = Ok s ∧ 0 ≤ s ∧ s ≤ Qc_of_Z 100).
Proof.
  intros Hwf Hcons Hsamp Hcomp Hcheck.
  assert (Hkeys : ∀ a, a ∈ antecedents c → label a ∈ kvs.*1).
  { intros a Ha. rewrite (check_inputs_keys _ _ _ Hcheck).
    unfold complete in Hcomp. rewrite List.Forall_forall in Hcomp.
    by apply Hcomp, list_elem_of_In. }
  rewrite infer_spec, Hcheck.
  rewrite (crisp_output_ext c _ (write_inputs kvs ∅)).
  2:{ intros a Ha. apply write_inputs_lookup. right. by apply Hkeys. }
  unfold firing. rewrite Hcheck.
  destruct (crisp_output_cases c (write_inputs kvs ∅)) as [Hz Hnz]; try done.
  { apply List.Forall_forall. intros a Ha%list_elem_of_In.
    apply write_inputs_is_Some. right. by apply Hkeys. }
  split.
  - intros H. apply Hz. apply Forall_fmap in H. exact H.
  - intros H. apply Hnz. intros H'. apply H. apply Forall_fmap. exact H'.
Qed.

Lemma morphological_well_formed : well_formed compatibility_morphological_ctrl.
Proof. apply (bool_decide_unpack _). by vm_compute. Qed.
Lemma psychological_well_formed : well_formed compatibility_psychological_ctrl.
Proof. apply (bool_decide_unpack _). by vm_compute. Qed.
Lemma medical_well_formed : well_formed compatibility_medical_ctrl.
Proof. apply (bool_decide_unpack _). by vm_compute. Qed.
Lemma salary_well_formed : well_formed compatibility_salary_ctrl.
Proof. apply (bool_decide_unpack _). by vm_compute. Qed.

Lemma morphological_sampled :
  Forall sampled_ok (antecedents compatibility_morphological_ctrl).
Proof. apply (bool_decide_unpack _). by vm_compute. Qed.
Lemma psychological_sampled :
  Forall sampled_ok (antecedents compatibility_psychological_ctrl).
Proof. apply (bool_decide_unpack _). by vm_compute. Qed.
Lemma medical_sampled :
  Forall sampled_ok (antecedents compatibility_medical_ctrl).
Proof. apply (bool_decide_unpack _). by vm_compute. Qed.
Lemma salary_sampled :
  Forall sampled_ok (antecedents compatibility_salary_ctrl).
Proof. apply (bool_decide_unpack _). by vm_compute. Qed.

Lemma groups_facts sk ha he te bl ed c inputs :
  (c, inputs) ∈ groups sk ha he te bl ed →
  well_formed c ∧ consequents c = [compatibility] ∧
  Forall sampled_ok (antecedents c) ∧ complete c inputs ∧
  ∃ kvs, check_inputs c inputs = Ok kvs.
Proof.
  unfold groups. rewrite !elem_of_cons, elem_of_nil.
  intros [[= -> ->]|[[= -> ->]|[[= -> ->]|[[= -> ->]|[]]]]].
  - split_and!; [apply morphological_well_formed | apply morphological_consequents
                 | apply morphological_sampled | apply complete_morphological |].
    eexists. apply check_morphological.
  - split_and!; [apply psychological_well_formed | apply psychological_consequents
                 | apply psychological_sampled | apply complete_psychological |].
    eexists. apply check_psychological.
  - split_and!; [apply medical_well_formed | apply medical_consequents
                 | apply medical_sampled | apply complete_medical |].
    eexists. apply check_medical.
  - split_and!; [apply salary_well_formed | apply salary_consequents
                 | apply salary_sampled | apply complete_salary |].
    eexists. apply check_salary.
Qed.

(** The two outcomes of each of the program's four groups. *)
Lemma groups_outcomes sk ha he te bl ed c inputs cur :
  (c, inputs) ∈ groups sk ha he te bl ed →
  (Forall (λ s, s = Some 0) (firing c inputs) →
   score (infer c inputs cur) =
   Raise (ValueError "Crisp output cannot be calculated.")) ∧
  (¬ Forall (λ s, s = Some 0) (firing c inputs) →
   ∃ s, score (infer c inputs cur) = Ok s ∧ 0 ≤ s ∧ s ≤ Qc_of_Z 100).
Proof.
  intros (Hwf & Hcons & Hsamp & Hcomp & kvs & Hcheck)%groups_facts.
  by apply (infer_cases c inputs kvs cur).
Qed.

Lemma groups_in_domain sk ha he te bl ed c inputs cur :
  (c, inputs) ∈ groups sk ha he te bl ed →
  (∃ s, score (infer c inputs cur) = Ok s ∧ 0 ≤ s ∧ s ≤ Qc_of_Z 100) ∨
  (score (infer c inputs cur) = Raise (ValueError "Crisp output cannot be calculated.") ∧
   Forall (λ s, s = Some 0) (firing c inputs)).
Proof.
  intros Hin. destruct (groups_outcomes _ _ _ _ _ _ _ _ cur Hin) as [Hz Hnz].
  destruct (decide (Forall (λ s, s = Some 0) (firing c inputs))) as [H|H].
  - right. split; [by apply Hz | done].
  - left. by apply Hnz.
Qed.

(** The midpoint is not what the code returns when nothing fires: with
    temperament 0 every psychological rule has firing strength 0, and the
    inference raises instead of returning 50. *)
Lemma midpoint_fallback_counterexample :
  Forall (λ s, s = Some 0)
    (firing compatibility_psychological_ctrl [("temperament", Qc_of_Z 0)]) ∧
  score (infer compatibility_psychological_ctrl [("temperament", Qc_of_Z 0)] ∅)
  ≠ Ok (Qc_of_Z 50).
Proof.
  split.
  - apply (bool_decide_unpack _). by vm_compute.
  - vm_compute. discriminate.
Qed.

(** C1 (as the code behaves): for each of the four rule groups and the
    inputs the program gives it, if every rule of the group has firing
    strength zero then the inference returns no score: the call raises.
    In particular no midpoint is returned. *)
Theorem zero_strength_raises (sk ha he te bl ed : Qc) (c : ControlSystem)
    (inputs : list (string * Qc)) (cur : gmap string Qc) :
  (c, inputs) ∈ groups sk ha he te bl ed →
  Forall (λ s, s = Some 0) (firing c inputs) →
  ∃ e, score (infer c inputs cur) = Raise e.
Proof.
  intros Hin Hzero. eexists.
  by apply (groups_outcomes sk ha he te bl ed c inputs cur Hin).
Qed.

Lemma zero_strength_raises_witness :
  ∃ e, score (infer compatibility_psychological_ctrl
                [("temperament", Qc_of_Z 0)] ∅) = Raise e.
Proof.
  apply (zero_strength_raises (Qc_of_Z 70) (Qc_of_Z 60) (Qc_of_Z 180) (Qc_of_Z 0)
           (Qc_of_Z 30) (Qc_of_Z 80)).
  - apply elem_of_cons. right. apply elem_of_cons. by left.
  - apply (bool_decide_unpack _). vm_compute. exact I.
Defined.

(** C2: for each of the four rule groups and the inputs the program gives
    it, the inference either returns a crisp score, and that score lies in
    [[0, 100]], or it raises because every rule of the group has firing
    strength zero. *)
Theorem group_score_in_domain (sk ha he te bl ed : Qc) (c : ControlSystem)
    (inputs : list (string * Qc)) (cur : gmap string Qc) :
  (c, inputs) ∈ groups sk ha he te bl ed →
  (∃ s, score (infer c inputs cur) = Ok s ∧ 0 ≤ s ∧ s ≤ Qc_of_Z 100) ∨
  (score (infer c inputs cur) = Raise (ValueError "Crisp output cannot be calculated.") ∧
   Forall (λ s, s = Some 0) (firing c inputs)).
Proof. apply groups_in_domain. Qed.

Lemma group_score_in_domain_witness :
  (∃ s, score (infer compatibility_psychological_ctrl
                 [("temperament", Qc_of_Z 20)] ∅) = Ok s ∧
        0 ≤ s ∧ s ≤ Qc_of_Z 100) ∨
  (score (infer compatibility_psychological_ctrl [("temperament", Qc_of_Z 20)] ∅) =
   Raise (ValueError "Crisp output cannot be calculated.") ∧
   Forall (λ s, s = Some 0)
     (firing compatibility_psychological_ctrl [("temperament", Qc_of_Z 20)])).
Proof.
  apply (group_score_in_domain (Qc_of_Z 70) (Qc_of_Z 60) (Qc_of_Z 180) (Qc_of_Z 20)
           (Qc_of_Z 30) (Qc_of_Z 80)).
  apply elem_of_cons. right. apply elem_of_cons. by left.
Defined.

(** C9: at temperament 0 and at temperament 100, both inside the declared
    range, the three temperament categories have degree zero, every
    psychological rule has firing strength zero, and so the computation of
    an individual's score raises whatever the other five inputs are. *)
Theorem temperament_extremes_fire_nothing :
  Forall (λ te,
    trimf_pt (Qc_of_Z 0) (Qc_of_Z 25) (Qc_of_Z 50) te = 0 ∧
    trimf_pt (Qc_of_Z 25) (Qc_of_Z 50) (Qc_of_Z 75) te = 0 ∧
    trimf_pt (Qc_of_Z 50) (Qc_of_Z 75) (Qc_of_Z 100) te = 0 ∧
    Forall (λ t, interp_membership (universe temperament) t.2 te = 0)
      (terms temperament) ∧
    firing compatibility_psychological_ctrl [("temperament", te)]
    = [Some 0; Some 0; Some 0] ∧
    ∀ sk ha he bl ed cur,
      score (compute_compatibility_score sk ha he te bl ed cur) =
      Raise (ValueError "Crisp output cannot be calculated."))
    [Qc_of_Z 0; Qc_of_Z 100].
Proof.
  assert (H : ∀ te,
    firing compatibility_psychological_ctrl [("temperament", te)]
    = [Some 0; Some 0; Some 0] →
    ∀ sk ha he bl ed cur,
      score (compute_compatibility_score sk ha he te bl ed cur) =
      Raise (ValueError "Crisp output cannot be calculated.")).
  { intros te Hf sk ha he bl ed cur. rewrite score_by_groups.
    assert (Hp : score (infer compatibility_psychological_ctrl
                          [("temperament", te)] cur) =
                 Raise (ValueError "Crisp output cannot be calculated.")).
    { apply (groups_outcomes sk ha he te bl ed).
      - apply elem_of_cons. right. apply elem_of_cons. by left.
      - rewrite Hf. by repeat constructor. }
    destruct (groups_in_domain sk ha he te bl ed
                compatibility_morphological_ctrl
                [("skin_colour", sk); ("hair_colour", ha); ("height", he)] cur)
      as [(m & -> & _)|[-> _]].
    - apply elem_of_cons. by left.
    - by rewrite Hp.
    - done. }
  repeat apply List.Forall_cons; [| |apply List.Forall_nil].
  - split_and!; [by apply Qc_is_canon; vm_compute..| | |].
    + apply (bool_decide_unpack _). by vm_compute.
    + by vm_compute.
    + apply H. by vm_compute.
  - split_and!; [by apply Qc_is_canon; vm_compute..| | |].
    + apply (bool_decide_unpack _). by vm_compute.
    + by vm_compute.
    + apply H. by vm_compute.
Qed.

(** ** Rule order *)

Lemma antecedents_perm c c' :
  rules c ≡ₚ rules c' → antecedents c ≡ₚ antecedents c'.
Proof.
  intros Hp. unfold antecedents.
  apply NoDup_Permutation; [apply NoDup_remove_dups..|].
  intros a. rewrite !elem_of_remove_dups, !list_elem_of_bind.
  split; intros (r & Ha & Hr); exists r; split; try done.
  - by rewrite <-Hp.
  - by rewrite Hp.
Qed.

Lemma consequents_perm c c' :
  rules c ≡ₚ rules c' → consequents c ≡ₚ consequents c'.
Proof.
  intros Hp. unfold consequents.
  apply NoDup_Permutation; [apply NoDup_remove_dups..|].
  intros a. rewrite !elem_of_remove_dups. by rewrite Hp.
Qed.

Lemma check_inputs_perm c c' inputs :
  rules c ≡ₚ rules c' → check_inputs c inputs = check_inputs c' inputs.
Proof.
  intros Hp%antecedents_perm.
  induction inputs as [|[k v] inputs IH]; cbn [check_inputs]; [done|].
  assert (Hf : filter (λ a, label a = k) (antecedents c)
               ≡ₚ filter (λ a, label a = k) (antecedents c')) by by rewrite Hp.
  destruct (filter _ (antecedents c)) as [|var [|var2 l]].
  - apply Permutation_nil_l in Hf. by rewrite <-Hf.
  - apply Permutation_singleton_l in Hf. rewrite <-Hf. by rewrite IH.
  - pose proof (Permutation_length Hf) as Hlen.
    destruct (filter _ (antecedents c')) as [|w [|w2 l']]; cbn in Hlen; [lia..|done].
Qed.

Lemma fuzz_all_missing vars inp mv a :
  a ∈ vars → inp !! label a = None →
  fuzz_all vars inp mv = Raise (ValueError "All antecedents must have input values!").
Proof.
  intros Ha Hn. destruct (fuzz_all vars inp mv) as [mv'|e] eqn:E.
  - exfalso. revert mv E. induction vars as [|b vars IH]; intros mv; cbn.
    { by apply elem_of_nil in Ha. }
    apply elem_of_cons in Ha as [->|Ha].
    + by rewrite Hn.
    + destruct (inp !! label b); [by apply IH | done].
  - by apply fuzz_all_Raise in E as [-> _].
Qed.

Lemma fuzz_all_perm vars vars' inp mv :
  vars ≡ₚ vars' →
  NoDup (label <$> vars) → Forall (λ a, NoDup (keys a)) vars →
  fuzz_all vars inp mv = fuzz_all vars' inp mv.
Proof.
  intros Hp Hnd Hk.
  assert (Hnd' : NoDup (label <$> vars')) by by rewrite <-Hp.
  assert (Hk' : Forall (λ a, NoDup (keys a)) vars') by by rewrite <-Hp.
  destruct (fuzz_all vars inp mv) as [mv1|e] eqn:E1.
  - destruct (fuzz_all vars' inp mv) as [mv2|e] eqn:E2.
    + f_equal. apply map_eq. intros [l k].
      destruct (fuzz_all_lookup _ _ _ _ Hnd Hk E1) as [H1 H1'].
      destruct (fuzz_all_lookup _ _ _ _ Hnd' Hk' E2) as [H2 H2'].
      destruct (decide (l ∈ label <$> vars)) as [Hin|Hnin].
      * apply list_elem_of_fmap in Hin as (a & -> & Ha).
        rewrite H1 by done. rewrite H2; [done|]. by rewrite <-Hp.
      * rewrite H1' by done. rewrite H2'; [done|]. by rewrite <-Hp.
    + apply fuzz_all_Raise in E2 as [_ (a & Ha & Hn)].
      rewrite (fuzz_all_missing vars inp mv a) in E1; [done| |done].
      by rewrite Hp.
  - apply fuzz_all_Raise in E1 as [-> (a & Ha & Hn)].
    symmetry. apply (fuzz_all_missing _ _ _ a); [|done]. by rewrite <-Hp.
Qed.

(** Two rules may be evaluated in either order. *)
Lemma compute_rule_swap (A : list string) (x y : Rule) mv :
  Forall (λ t, label t.1 ∈ A) (leaves (antecedent x)) →
  Forall (λ t, label t.1 ∈ A) (leaves (antecedent y)) →
  label (consequent x).1 ∉ A → label (consequent y).1 ∉ A →
  match compute_rule x mv with
  | Ok mv' => compute_rule y mv'
  | Raise e => Raise e
  end =
  match compute_rule y mv with
  | Ok mv' => compute_rule x mv'
  | Raise e => Raise e
  end.
Proof.
  intros Hlx Hly Hcx Hcy.
  set (kx := (label (consequent x).1, (consequent x).2)).
  set (ky := (label (consequent y).1, (consequent y).2)).
  assert (Hins : ∀ (e : TermAggregate) (k : string * string) v,
            Forall (λ t, label t.1 ∈ A) (leaves e) → k.1 ∉ A →
            aggregate_membership (<[k := v]> mv) e = aggregate_membership mv e).
  { intros e k v Hl Hk. apply aggregate_ext.
    eapply Forall_impl; [exact Hl|]. intros t Ht. cbv beta.
    rewrite lookup_insert_ne; [done|]. intros ->. by apply Hk. }
  destruct (aggregate_membership mv (antecedent x)) as [a|] eqn:Ex;
    destruct (aggregate_membership mv (antecedent y)) as [b|] eqn:Ey.
  - rewrite (compute_rule_Ok x mv a Ex), (compute_rule_Ok y mv b Ey).
    fold kx ky.
    rewrite (compute_rule_Ok y _ b), (compute_rule_Ok x _ a);
      [|by rewrite Hins..].
    fold kx ky. f_equal.
    destruct (decide (kx = ky)) as [Heq|Hne].
    + rewrite <-Heq, !lookup_insert_eq, !insert_insert_eq. f_equal.
      destruct (mv !! kx) as [o|].
      * rewrite !fmax_assoc. f_equal. apply fmax_comm.
      * apply fmax_comm.
    + rewrite (lookup_insert_ne mv kx ky) by done.
      rewrite (lookup_insert_ne mv ky kx) by done.
      by apply insert_insert_ne.
  - rewrite (compute_rule_Ok x mv a Ex). fold kx.
    unfold compute_rule at 1 2. by rewrite Hins, Ey.
  - rewrite (compute_rule_Ok y mv b Ey). fold ky.
    unfold compute_rule at 1 3. by rewrite Hins, Ex.
  - unfold compute_rule. by rewrite Ex, Ey.
Qed.

Lemma compute_rules_perm (A : list string) rs rs' mv :
  rs ≡ₚ rs' →
  Forall (λ r, Forall (λ t, label t.1 ∈ A) (leaves (antecedent r)) ∧
               label (consequent r).1 ∉ A) rs →
  compute_rules false rs mv = compute_rules false rs' mv.
Proof.
  intros Hp. revert mv.
  induction Hp as [|x l l' Hp IH|x y l|l l' l'' Hp1 IH1 Hp2 IH2]; intros mv Hall.
  - done.
  - cbn [compute_rules]. inversion Hall; subst.
    destruct (compute_rule x mv); [by apply IH | done].
  - cbn [compute_rules].
    inversion Hall as [|?? [Hly Hcy] Hall']; subst.
    inversion Hall' as [|?? [Hlx Hcx] _]; subst.
    pose proof (compute_rule_swap A y x mv Hly Hlx Hcy Hcx) as Hsw.
    destruct (compute_rule y mv) as [m1|e1]; destruct (compute_rule x mv) as [m2|e2].
    + destruct (compute_rule x m1) as [m12|]; destruct (compute_rule y m2) as [m21|];
        try done. by injection Hsw as ->.
    + destruct (compute_rule x m1); [done | by rewrite Hsw].
    + destruct (compute_rule y m2); [done | by rewrite <-Hsw].
    + done.
  - rewrite IH1 by done. apply IH2. by rewrite <-Hp1.
Qed.

Lemma compute_rule_stored r mv mv' :
  compute_rule r mv = Ok mv' →
  is_Some (mv' !! (label (consequent r).1, (consequent r).2)) ∧
  ∀ k, is_Some (mv !! k) → is_Some (mv' !! k).
Proof.
  unfold compute_rule.
  destruct (aggregate_membership mv (antecedent r)) as [s|]; [|done].
  set (ck := (label (consequent r).1, (consequent r).2)).
  destruct (mv !! ck) as [old|]; intros [= <-].
  - split; [rewrite lookup_insert_eq; by eexists|].
    intros k Hk. destruct (decide (ck = k)) as [<-|Hne].
    + rewrite lookup_insert_eq. by eexists.
    + by rewrite lookup_insert_ne.
  - split; [rewrite lookup_insert_eq; by eexists|].
    intros k Hk. destruct (decide (ck = k)) as [<-|Hne].
    + rewrite lookup_insert_eq. by eexists.
    + by rewrite lookup_insert_ne.
Qed.

Lemma compute_rules_stored rs mv mv' :
  compute_rules false rs mv = Ok mv' →
  (∀ k, is_Some (mv !! k) → is_Some (mv' !! k)) ∧
  Forall (λ r, is_Some (mv' !! (label (consequent r).1, (consequent r).2))) rs.
Proof.
  revert mv. induction rs as [|r rs IH]; intros mv; cbn [compute_rules].
  { intros [= <-]. split; [done | constructor]. }
  destruct (compute_rule r mv) as [m1|] eqn:E; [|done].
  intros Hrun. destruct (compute_rule_stored _ _ _ E) as [Hr Hkeep].
  destruct (IH _ Hrun) as [Hkeep' Hall]. split.
  - intros k Hk. by apply Hkeep', Hkeep.
  - constructor; [by apply Hkeep' | done].
Qed.

Lemma defuzz_var_error var mv e :
  cut_terms var mv ≠ [] → defuzz_var var mv = Raise e →
  e = ValueError "Crisp output cannot be calculated.".
Proof.
  intros Hne. unfold defuzz_var.
  assert (Hn : (find_memberships var mv).2 = length (cut_terms var mv)) by done.
  destruct (find_memberships var mv) as [[u out] n]. cbn in Hn. subst n.
  rewrite bool_decide_eq_false_2 by by destruct (cut_terms var mv).
  unfold defuzz. case_bool_decide; [|done]. by intros [= <-].
Qed.

Lemma defuzz_all_perm vars vars' mv out :
  vars ≡ₚ vars' →
  NoDup (label <$> vars) →
  Forall (λ v, cut_terms v mv ≠ []) vars →
  defuzz_all vars mv out = defuzz_all vars' mv out.
Proof.
  intros Hp. revert out.
  induction Hp as [|x l l' Hp IH|x y l|l l' l'' Hp1 IH1 Hp2 IH2]; intros out Hnd Hne.
  - done.
  - cbn [defuzz_all]. cbn in Hnd. apply NoDup_cons in Hnd as [_ Hnd].
    inversion Hne; subst. destruct (defuzz_var x mv); [by apply IH | done].
  - cbn [defuzz_all]. cbn in Hnd.
    apply NoDup_cons in Hnd as [Hxy%not_elem_of_cons _]. destruct Hxy as [Hxy _].
    inversion Hne as [|?? Hy Hne']; subst. inversion Hne' as [|?? Hx _]; subst.
    destruct (defuzz_var y mv) as [vy|ey] eqn:Ey;
      destruct (defuzz_var x mv) as [vx|ex] eqn:Ex; try done.
    + by rewrite insert_insert_ne.
    + apply defuzz_var_error in Ey; [|done]. apply defuzz_var_error in Ex; [|done].
      by subst.
  - rewrite IH1 by done. apply IH2; by rewrite <-Hp1.
Qed.

Lemma crisp_output_perm c c' inp :
  well_formed c → rules c ≡ₚ rules c' →
  crisp_output c inp = crisp_output c' inp.
Proof.
  intros (Hnd & Hndc & Hkeys & Hrules) Hp.
  pose proof (antecedents_perm _ _ Hp) as Hpa.
  pose proof (consequents_perm _ _ Hp) as Hpc.
  unfold crisp_output.
  rewrite <-(fuzz_all_perm _ _ inp ∅ Hpa Hnd Hkeys).
  destruct (fuzz_all (antecedents c) inp ∅) as [mv0|] eqn:Hfuzz; [|done].
  destruct (fuzz_all_lookup _ _ _ _ Hnd Hkeys Hfuzz) as [_ Hother].
  assert (Hnone : Forall (λ r, mv0 !! (label (consequent r).1, (consequent r).2) = None)
                    (rules c)).
  { eapply Forall_impl; [exact Hrules|]. intros r (Hl & _ & _). cbv beta.
    by rewrite Hother. }
  rewrite (compute_rules_first (rules c)) by done.
  rewrite (compute_rules_first (rules c')) by by rewrite <-Hp.
  rewrite <-(compute_rules_perm (label <$> antecedents c) _ _ mv0 Hp).
  2:{ apply List.Forall_forall. intros r Hr. rewrite List.Forall_forall in Hrules.
      destruct (Hrules r Hr) as (Hl & _ & _). split; [|done].
      apply List.Forall_forall. intros t Ht%list_elem_of_In.
      apply list_elem_of_fmap_2.
      eapply leaves_in_antecedents; [by apply list_elem_of_In | done]. }
  destruct (compute_rules false (rules c) mv0) as [mv1|] eqn:Hrun; [|done].
  rewrite <-(defuzz_all_perm _ _ mv1 ∅ Hpc Hndc); [done|].
  destruct (compute_rules_stored _ _ _ Hrun) as [_ Hst].
  apply List.Forall_forall. intros v Hv%list_elem_of_In.
  unfold consequents in Hv. rewrite elem_of_remove_dups in Hv.
  apply list_elem_of_fmap in Hv as (r & -> & Hr).
  rewrite List.Forall_forall in Hst, Hrules.
  destruct (Hst r) as [cut Hcut]; [by apply list_elem_of_In|].
  destruct (Hrules r) as (_ & Hkey & _); [by apply list_elem_of_In|].
  unfold keys in Hkey. apply list_elem_of_fmap in Hkey as ([k mf] & Hk & Hin).
  cbn in Hk. intros Hnil.
  assert (Hel : (mf, cut) ∈ cut_terms (consequent r).1 mv1).
  { apply cut_terms_elem. exists k. split; [done|]. by rewrite <-Hk. }
  rewrite Hnil in Hel. by apply elem_of_nil in Hel.
Qed.

(** C7: listing the rules of a control system in another order does not
    change what the inference returns or raises, for any inputs. *)
Theorem rule_order_irrelevant (c c' : ControlSystem) (inputs : list (string * Qc))
    (cur : gmap string Qc) :
  well_formed c → rules c ≡ₚ rules c' →
  score (infer c inputs cur) = score (infer c' inputs cur).
Proof.
  intros Hwf Hp. rewrite !infer_spec, <-(check_inputs_perm c c' inputs Hp).
  destruct (check_inputs c inputs); [|done]. by apply crisp_output_perm.
Qed.

Lemma rule_order_irrelevant_witness :
  score (infer compatibility_morphological_ctrl
           [("skin_colour", Qc_of_Z 70); ("hair_colour", Qc_of_Z 60);
            ("height", Qc_of_Z 180)] ∅) =
  score (infer {| rules := [rule_skin_dark; rule_skin_light; rule_skin_medium] |}
           [("skin_colour", Qc_of_Z 70); ("hair_colour", Qc_of_Z 60);
            ("height", Qc_of_Z 180)] ∅).
Proof.
  apply rule_order_irrelevant.
  - apply (bool_decide_unpack _). vm_compute. exact I.
  - cbn [rules compatibility_morphological_ctrl].
    symmetry.
    apply (Permutation_cons_append [rule_skin_light; rule_skin_medium] rule_skin_dark).
Defined.

Lemma firing_strength_is_min_witness :
  ∃ s, aggregate_membership
         (<[("skin_colour", "light") := Qc_of_Z 1]>
            (<[("hair_colour", "blonde") := Q2Qc (1 # 2)]>
               (<[("height", "tall") := Q2Qc (1 # 3)]> ∅)))
         (antecedent rule_skin_light) = Some s ∧
       s ∈ [Qc_of_Z 1; Q2Qc (1 # 2); Q2Qc (1 # 3)] ∧
       ∀ d, d ∈ [Qc_of_Z 1; Q2Qc (1 # 2); Q2Qc (1 # 3)] → s ≤ d.
Proof.
  refine (proj1 (firing_strength_is_min _ rule_skin_light
                   [Qc_of_Z 1; Q2Qc (1 # 2); Q2Qc (1 # 3)] _)).
  vm_compute. reflexivity.
Defined.

(** * Further properties of the program *)

(** ** Fuzzification on the integer grid is exact *)

Lemma Qc_of_Z_plus (n m : Z) : Qc_of_Z (n + m) = Qc_of_Z n + Qc_of_Z m.
Proof.
  apply Qc_is_canon.
  change (inject_Z (n + m) == Qred (inject_Z n + inject_Z m))%Q.
  rewrite Qred_correct, inject_Z_plus. reflexivity.
Qed.

Lemma Qc_sub_ne (x y : Qc) : x ≠ y → x - y ≠ 0.
Proof.
  intros Hne H0. apply Hne. apply Qcplus_inj_l with (- y).
  by rewrite Qcplus_opp_r.
Qed.

Lemma trimf_pt_on_rise (a b c x : Qc) :
  a < b → b ≤ c → a ≤ x → x ≤ b → trimf_pt a b c x = (x - a) / (b - a).
Proof.
  intros Hab Hbc Hax Hxb.
  assert (Hd : b - a ≠ 0) by (apply Qc_sub_ne; intros ->; by apply Qclt_not_eq in Hab).
  destruct (decide (x = b)) as [->|Hxb'].
  { rewrite trimf_pt_peak. by field. }
  destruct (decide (x = a)) as [->|Hxa'].
  { rewrite trimf_pt_left; [by field|by apply Qclt_le_weak|done|apply Qcle_refl|done]. }
  apply trimf_pt_rise; [|by apply Qc_lt_of_le_ne|done].
  apply Qc_lt_of_le_ne; [done | congruence].
Qed.

Lemma trimf_pt_on_fall (a b c x : Qc) :
  a ≤ b → b < c → b ≤ x → x ≤ c → trimf_pt a b c x = (c - x) / (c - b).
Proof.
  intros Hab Hbc Hbx Hxc.
  assert (Hd : c - b ≠ 0).
  { apply Qc_sub_ne. intros ->. by apply Qclt_not_eq in Hbc. }
  destruct (decide (x = b)) as [->|Hxb'].
  { rewrite trimf_pt_peak. by field. }
  destruct (decide (x = c)) as [->|Hxc'].
  { rewrite trimf_pt_right; [by field|done|by apply Qclt_le_weak|apply Qcle_refl|done]. }
  apply trimf_pt_fall; [done| |by apply Qc_lt_of_le_ne].
  apply Qc_lt_of_le_ne; [done | congruence].
Qed.

(** With integer breakpoints [a < b < c] the triangle is a straight line
    between two neighbouring integers. *)
Lemma trimf_cell (a b c m : Z) (x : Qc) :
  (a < b < c)%Z → Qc_of_Z m ≤ x → x ≤ Qc_of_Z (m + 1) →
  trimf_pt (Qc_of_Z a) (Qc_of_Z b) (Qc_of_Z c) x =
  trimf_pt (Qc_of_Z a) (Qc_of_Z b) (Qc_of_Z c) (Qc_of_Z m) +
  (trimf_pt (Qc_of_Z a) (Qc_of_Z b) (Qc_of_Z c) (Qc_of_Z (m + 1)) -
   trimf_pt (Qc_of_Z a) (Qc_of_Z b) (Qc_of_Z c) (Qc_of_Z m))
  / (Qc_of_Z (m + 1) - Qc_of_Z m) * (x - Qc_of_Z m).
Proof.
  intros [Hab Hbc] Hm Hm1.
  assert (HA : Qc_of_Z a < Qc_of_Z b) by by apply Qc_of_Z_lt.
  assert (HB : Qc_of_Z b < Qc_of_Z c) by by apply Qc_of_Z_lt.
  assert (Hd1 : Qc_of_Z b - Qc_of_Z a ≠ 0).
  { apply Qc_sub_ne. intros E. rewrite E in HA. by apply Qclt_not_eq in HA. }
  assert (Hd2 : Qc_of_Z c - Qc_of_Z b ≠ 0).
  { apply Qc_sub_ne. intros E. rewrite E in HB. by apply Qclt_not_eq in HB. }
  assert (Hstep : Qc_of_Z (m + 1) = Qc_of_Z m + 1) by apply Qc_of_Z_plus.
  assert (Hcases : (m + 1 ≤ a ∨ (a ≤ m ∧ m + 1 ≤ b) ∨ (b ≤ m ∧ m + 1 ≤ c) ∨ c ≤ m)%Z)
    by lia.
  destruct Hcases as [H|[[H1 H2]|[[H1 H2]|H]]].
  - apply Qc_of_Z_le in H.
    assert (Hz : ∀ y, y ≤ Qc_of_Z (m + 1) →
              trimf_pt (Qc_of_Z a) (Qc_of_Z b) (Qc_of_Z c) y = 0).
    { intros y Hy. apply trimf_pt_left; try by apply Qclt_le_weak.
      - by eapply Qcle_trans.
      - intros ->. eapply Qclt_not_le; [exact HA|]. by eapply Qcle_trans. }
    rewrite (Hz x), (Hz (Qc_of_Z m)), (Hz (Qc_of_Z (m + 1)));
      [|apply Qcle_refl|by eapply Qcle_trans|done].
    rewrite Hstep. replace (Qc_of_Z m + 1 - Qc_of_Z m) with 1 by ring.
    field; repeat split; first [done | apply Q_apart_0_1].
  - rewrite !trimf_pt_on_rise;
      try first [done | by apply Qclt_le_weak | apply Qc_of_Z_le; lia
                | apply Qcle_trans with (Qc_of_Z m); [apply Qc_of_Z_le; lia | done]
                | apply Qcle_trans with (Qc_of_Z (m + 1)); [done | apply Qc_of_Z_le; lia] ].
    rewrite Hstep. replace (Qc_of_Z m + 1 - Qc_of_Z m) with 1 by ring.
    field; repeat split; first [done | apply Q_apart_0_1].
  - rewrite !trimf_pt_on_fall;
      try first [done | by apply Qclt_le_weak | apply Qc_of_Z_le; lia
                | apply Qcle_trans with (Qc_of_Z m); [apply Qc_of_Z_le; lia | done]
                | apply Qcle_trans with (Qc_of_Z (m + 1)); [done | apply Qc_of_Z_le; lia] ].
    rewrite Hstep. replace (Qc_of_Z m + 1 - Qc_of_Z m) with 1 by ring.
    field; repeat split; first [done | apply Q_apart_0_1].
  - apply Qc_of_Z_le in H.
    assert (Hz : ∀ y, Qc_of_Z m ≤ y →
              trimf_pt (Qc_of_Z a) (Qc_of_Z b) (Qc_of_Z c) y = 0).
    { intros y Hy. apply trimf_pt_right; try by apply Qclt_le_weak.
      - by eapply Qcle_trans.
      - intros ->. eapply Qclt_not_le; [exact HB|]. by eapply Qcle_trans. }
    rewrite (Hz x), (Hz (Qc_of_Z m)), (Hz (Qc_of_Z (m + 1)));
      [|apply Qc_of_Z_le; lia|apply Qcle_refl|done].
    rewrite Hstep. replace (Qc_of_Z m + 1 - Qc_of_Z m) with 1 by ring.
    field; repeat split; first [done | apply Q_apart_0_1].
Qed.

Lemma interp_in_cons2 xx x0 y0 x1 y1 (T : list (Qc * Qc)) :
  interp_in xx ((x0, y0) :: (x1, y1) :: T) =
  if bool_decide (xx < x1)
  then Some (y0 + (y1 - y0) / (x1 - x0) * (xx - x0))
  else interp_in xx ((x1, y1) :: T).
Proof. reflexivity. Qed.

Lemma interp_nonempty xx (xp fp : list Qc) l r x0 :
  head xp = Some x0 →
  interp xx xp fp l r =
  if bool_decide (xx < x0) then l else default r (interp_in xx (zip xp fp)).
Proof. destruct xp; cbn; [done|]. by intros [= ->]. Qed.

(** Interpolating the samples of a function that is a straight line on
    every unit cell gives the function back, anywhere on the grid. *)
Lemma interp_in_grid (f : Qc → Qc) (start : Z) :
  (∀ (m : Z) x, Qc_of_Z m ≤ x → x ≤ Qc_of_Z (m + 1) →
     f x = f (Qc_of_Z m) +
           (f (Qc_of_Z (m + 1)) - f (Qc_of_Z m)) / (Qc_of_Z (m + 1) - Qc_of_Z m)
           * (x - Qc_of_Z m)) →
  ∀ (n j : nat) xx,
    Qc_of_Z (start + Z.of_nat j * 1) ≤ xx →
    xx ≤ Qc_of_Z (start + Z.of_nat (j + n) * 1) →
    interp_in xx
      (zip ((λ i : nat, Qc_of_Z (start + Z.of_nat i * 1)) <$> seq j (S n))
           (f <$> ((λ i : nat, Qc_of_Z (start + Z.of_nat i * 1)) <$> seq j (S n))))
    = Some (f xx).
Proof.
  intros Hcell. set (G := λ i : nat, Qc_of_Z (start + Z.of_nat i * 1)).
  induction n as [|n IH]; intros j xx Hlo Hhi.
  - replace (j + 0)%nat with j in Hhi by lia.
    assert (xx = G j) as -> by by apply Qcle_antisym.
    cbn. by rewrite bool_decide_eq_true_2.
  - change (zip (G <$> seq j (S (S n))) (f <$> (G <$> seq j (S (S n)))))
      with ((G j, f (G j)) :: (G (S j), f (G (S j)))
            :: zip (G <$> seq (S (S j)) n) (f <$> (G <$> seq (S (S j)) n))).
    rewrite interp_in_cons2. case_bool_decide as Hlt.
    + f_equal. symmetry. unfold G.
      replace (start + Z.of_nat (S j) * 1)%Z with (start + Z.of_nat j * 1 + 1)%Z by lia.
      apply Hcell; [done|].
      replace (start + Z.of_nat j * 1 + 1)%Z with (start + Z.of_nat (S j) * 1)%Z by lia.
      by apply Qclt_le_weak.
    + apply (IH (S j)).
      * by apply Qcnot_lt_le.
      * by replace (S j + n)%nat with (j + S n)%nat by lia.
Qed.

Lemma interp_membership_exact (f : Qc → Qc) (lo hi : Z) (x : Qc) :
  (lo < hi)%Z →
  (∀ (m : Z) x, Qc_of_Z m ≤ x → x ≤ Qc_of_Z (m + 1) →
     f x = f (Qc_of_Z m) +
           (f (Qc_of_Z (m + 1)) - f (Qc_of_Z m)) / (Qc_of_Z (m + 1) - Qc_of_Z m)
           * (x - Qc_of_Z m)) →
  Qc_of_Z lo ≤ x → x ≤ Qc_of_Z (hi - 1) →
  interp_membership (arange lo hi 1) (f <$> arange lo hi 1) x = f x.
Proof.
  intros Hlh Hcell Hlo Hhi. unfold arange.
  replace (Z.to_nat ((hi - lo + 1 - 1) `div` 1)) with (S (Z.to_nat (hi - lo - 1)))
    by (rewrite Z.div_1_r; lia).
  unfold interp_membership.
  rewrite (interp_nonempty _ _ _ _ _ (Qc_of_Z (lo + Z.of_nat 0 * 1))) by done.
  rewrite bool_decide_eq_false_2.
  2:{ apply Qcle_not_lt. by replace (lo + Z.of_nat 0 * 1)%Z with lo by lia. }
  rewrite (interp_in_grid f lo Hcell); [done| |].
  - by replace (lo + Z.of_nat 0 * 1)%Z with lo by lia.
  - by replace (lo + Z.of_nat (0 + Z.to_nat (hi - lo - 1)) * 1)%Z with (hi - 1)%Z by lia.
Qed.

Lemma degree_exact (var : FuzzyVariable) key (lo hi a b c : Z) (x : Qc) :
  universe var = arange lo hi 1 →
  dict_get key (terms var) = Some (trimf (arange lo hi 1) (a, b, c)) →
  (lo < hi)%Z → (a < b < c)%Z →
  Qc_of_Z lo ≤ x → x ≤ Qc_of_Z (hi - 1) →
  degree var key x = Some (trimf_pt (Qc_of_Z a) (Qc_of_Z b) (Qc_of_Z c) x).
Proof.
  intros Hu Hk Hlh Habc Hlo Hhi. unfold degree. rewrite Hk, Hu. cbn. f_equal.
  apply (interp_membership_exact (trimf_pt (Qc_of_Z a) (Qc_of_Z b) (Qc_of_Z c)));
    try done.
  intros m y. by apply trimf_cell.
Qed.

Lemma amin_percent : amin (arange 0 101 1) = Qc_of_Z 0.
Proof. apply Qc_is_canon. by vm_compute. Qed.
Lemma amax_percent : amax (arange 0 101 1) = Qc_of_Z 100.
Proof. apply Qc_is_canon. by vm_compute. Qed.
Lemma amin_height : amin (arange 120 220 1) = Qc_of_Z 120.
Proof. apply Qc_is_canon. by vm_compute. Qed.
Lemma amax_height : amax (arange 120 220 1) = Qc_of_Z 219.
Proof. apply Qc_is_canon. by vm_compute. Qed.

Ltac solve_exact lo hi :=
  match goal with
  | |- degree ?var ?key ?x = Some (trimf_pt (Qc_of_Z ?a) (Qc_of_Z ?b) (Qc_of_Z ?c) ?x) =>
      apply (degree_exact var key lo hi a b c);
      [reflexivity | by vm_compute | lia | lia | done | done]
  end.

(** For every term app.py declares and every value within the variable's
    universe, the degree computed by interpolation on the sampled
    membership array is the value of the triangle itself. *)
Lemma declared_degree var ts key a b c x :
  (var, ts) ∈ declared_terms → (key, (a, b, c)) ∈ ts →
  amin (universe var) ≤ x → x ≤ amax (universe var) →
  degree var key x = Some (trimf_pt (Qc_of_Z a) (Qc_of_Z b) (Qc_of_Z c) x).
Proof.
  unfold declared_terms. rewrite !elem_of_cons, elem_of_nil.
  intros [[= -> ->]|[[= -> ->]|[[= -> ->]|[[= -> ->]|[[= -> ->]|[[= -> ->]|[[= -> ->]|[]]]]]]]];
    rewrite !elem_of_cons, elem_of_nil;
    intros [[= -> -> -> ->]|[[= -> -> -> ->]|[[= -> -> -> ->]|[]]]].
  all: intros Hlo Hhi.
  all: match goal with
       | |- degree ?var _ _ = _ =>
           first
             [ assert (Hu : universe var = arange 0 101 1) by reflexivity;
               rewrite Hu, ?amin_percent, ?amax_percent in Hlo, Hhi;
               solve_exact 0%Z 101%Z
             | assert (Hu : universe var = arange 120 220 1) by reflexivity;
               rewrite Hu, ?amin_height, ?amax_height in Hlo, Hhi;
               solve_exact 120%Z 220%Z ]
       end.
Qed.

(** ** Clipping of the inputs *)

Lemma clamp_range (lo hi : Z) (v : Qc) :
  (lo ≤ hi)%Z → Qc_of_Z lo ≤ clamp lo hi v ∧ clamp lo hi v ≤ Qc_of_Z hi.
Proof.
  intros H%Qc_of_Z_le. unfold clamp. split; [apply fmax_ge_r|].
  apply fmax_lub; [apply fmin_le_r | done].
Qed.

Lemma clamp_id (lo hi : Z) (v : Qc) :
  Qc_of_Z lo ≤ v → v ≤ Qc_of_Z hi → clamp lo hi v = v.
Proof.
  intros Hlo Hhi. unfold clamp, fmin, fmax.
  rewrite (bool_decide_eq_true_2 (v ≤ Qc_of_Z hi)) by done.
  case_bool_decide; [by apply Qcle_antisym | done].
Qed.

Lemma clamp_idem (lo hi : Z) (v : Qc) :
  (lo ≤ hi)%Z → clamp lo hi (clamp lo hi v) = clamp lo hi v.
Proof. intros H. apply clamp_id; by apply clamp_range. Qed.

Lemma clamp_low (lo hi : Z) (v : Qc) :
  (lo < hi)%Z → clamp lo hi v = Qc_of_Z lo ↔ v ≤ Qc_of_Z lo.
Proof.
  intros H%Qc_of_Z_lt. unfold clamp, fmin, fmax.
  repeat case_bool_decide; split; intros; subst; try done; qc_lra.
Qed.

Lemma clamp_high (lo hi : Z) (v : Qc) :
  (lo < hi)%Z → clamp lo hi v = Qc_of_Z hi ↔ Qc_of_Z hi ≤ v.
Proof.
  intros H%Qc_of_Z_lt. unfold clamp, fmin, fmax.
  repeat case_bool_decide; split; intros; subst; try done; qc_lra.
Qed.

Lemma clip_percent (var : FuzzyVariable) (v : Qc) :
  universe var = arange 0 101 1 → clip var v = clamp 0 100 v.
Proof. intros Hu. unfold clip, clamp. by rewrite Hu, amin_percent, amax_percent. Qed.

Lemma clip_height_clamp (v : Qc) : clip height v = clamp 120 219 v.
Proof.
  unfold clip, clamp.
  change (universe height) with (arange 120 220 1).
  by rewrite amin_height, amax_height.
Qed.

Lemma degree_percent (var : FuzzyVariable) key (a b c : Z) (v : Qc) :
  universe var = arange 0 101 1 →
  dict_get key (terms var) = Some (trimf (arange 0 101 1) (a, b, c)) →
  (a < b < c)%Z →
  degree var key (clamp 0 100 v) =
  Some (trimf_pt (Qc_of_Z a) (Qc_of_Z b) (Qc_of_Z c) (clamp 0 100 v)).
Proof.
  intros Hu Hk Habc.
  apply (degree_exact var key 0 101 a b c);
    [done | done | lia | done | by apply clamp_range | by apply (clamp_range 0 100)].
Qed.

Lemma degree_height (key : string) (a b c : Z) (v : Qc) :
  dict_get key (terms height) = Some (trimf (arange 120 220 1) (a, b, c)) →
  (a < b < c)%Z →
  degree height key (clamp 120 219 v) =
  Some (trimf_pt (Qc_of_Z a) (Qc_of_Z b) (Qc_of_Z c) (clamp 120 219 v)).
Proof.
  intros Hk Habc.
  apply (degree_exact height key 120 220 a b c);
    [done | done | lia | done | by apply clamp_range | by apply (clamp_range 120 219)].
Qed.

(** ** Firing strengths in closed form *)

Ltac solve_degree :=
  first [ reflexivity | by vm_compute | lia ].

Lemma firing_psychological te :
  firing compatibility_psychological_ctrl [("temperament", te)] =
  [Some (trimf_pt (Qc_of_Z 0) (Qc_of_Z 25) (Qc_of_Z 50) (clamp 0 100 te));
   Some (trimf_pt (Qc_of_Z 25) (Qc_of_Z 50) (Qc_of_Z 75) (clamp 0 100 te));
   Some (trimf_pt (Qc_of_Z 50) (Qc_of_Z 75) (Qc_of_Z 100) (clamp 0 100 te))].
Proof.
  unfold firing. rewrite check_psychological.
  rewrite (clip_percent temperament) by reflexivity.
  cbn [rules compatibility_psychological_ctrl fmap list_fmap antecedent
       rule_calm rule_balanced rule_angry strength].
  rewrite label_temperament. unfold write_inputs. cbn [foldl].
  rewrite lookup_insert_eq. cbn [mbind option_bind].
  rewrite (degree_percent temperament "calm" 0 25 50) by solve_degree.
  rewrite (degree_percent temperament "balanced" 25 50 75) by solve_degree.
  by rewrite (degree_percent temperament "angry" 50 75 100) by solve_degree.
Qed.

Lemma firing_medical bl :
  firing compatibility_medical_ctrl [("blood_group", bl)] =
  [Some (trimf_pt (Qc_of_Z 0) (Qc_of_Z 25) (Qc_of_Z 50) (clamp 0 100 bl));
   Some (trimf_pt (Qc_of_Z 25) (Qc_of_Z 50) (Qc_of_Z 75) (clamp 0 100 bl));
   Some (trimf_pt (Qc_of_Z 50) (Qc_of_Z 75) (Qc_of_Z 100) (clamp 0 100 bl))].
Proof.
  unfold firing. rewrite check_medical.
  rewrite (clip_percent blood_group) by reflexivity.
  cbn [rules compatibility_medical_ctrl fmap list_fmap antecedent
       rule_blood_A rule_blood_B rule_blood_O strength].
  rewrite label_blood_group. unfold write_inputs. cbn [foldl].
  rewrite lookup_insert_eq. cbn [mbind option_bind].
  rewrite (degree_percent blood_group "A" 0 25 50) by solve_degree.
  rewrite (degree_percent blood_group "B" 25 50 75) by solve_degree.
  by rewrite (degree_percent blood_group "O" 50 75 100) by solve_degree.
Qed.

Lemma firing_salary ed :
  firing compatibility_salary_ctrl [("educational_level", ed)] =
  [Some (trimf_pt (Qc_of_Z 0) (Qc_of_Z 25) (Qc_of_Z 50) (clamp 0 100 ed));
   Some (trimf_pt (Qc_of_Z 25) (Qc_of_Z 50) (Qc_of_Z 75) (clamp 0 100 ed));
   Some (trimf_pt (Qc_of_Z 50) (Qc_of_Z 75) (Qc_of_Z 100) (clamp 0 100 ed))].
Proof.
  unfold firing. rewrite check_salary.
  rewrite (clip_percent educational_level) by reflexivity.
  cbn [rules compatibility_salary_ctrl fmap list_fmap antecedent
       rule_educ_low rule_educ_medium rule_educ_high strength].
  rewrite label_educational_level. unfold write_inputs. cbn [foldl].
  rewrite lookup_insert_eq. cbn [mbind option_bind].
  rewrite (degree_percent educational_level "low" 0 25 50) by solve_degree.
  rewrite (degree_percent educational_level "medium" 25 50 75) by solve_degree.
  by rewrite (degree_percent educational_level "high" 50 75 100) by solve_degree.
Qed.

Lemma firing_morphological sk ha he :
  firing compatibility_morphological_ctrl
    [("skin_colour", sk); ("hair_colour", ha); ("height", he)] =
  [Some (fmin (fmin (trimf_pt (Qc_of_Z 0) (Qc_of_Z 25) (Qc_of_Z 50) (clamp 0 100 sk))
                    (trimf_pt (Qc_of_Z 0) (Qc_of_Z 25) (Qc_of_Z 50) (clamp 0 100 ha)))
              (trimf_pt (Qc_of_Z 170) (Qc_of_Z 190) (Qc_of_Z 220) (clamp 120 219 he)));
   Some (fmin (fmin (trimf_pt (Qc_of_Z 25) (Qc_of_Z 50) (Qc_of_Z 75) (clamp 0 100 sk))
                    (trimf_pt (Qc_of_Z 25) (Qc_of_Z 50) (Qc_of_Z 75) (clamp 0 100 ha)))
              (trimf_pt (Qc_of_Z 150) (Qc_of_Z 170) (Qc_of_Z 190) (clamp 120 219 he)));
   Some (fmin (fmin (trimf_pt (Qc_of_Z 50) (Qc_of_Z 75) (Qc_of_Z 100) (clamp 0 100 sk))
                    (trimf_pt (Qc_of_Z 50) (Qc_of_Z 75) (Qc_of_Z 100) (clamp 0 100 ha)))
              (trimf_pt (Qc_of_Z 120) (Qc_of_Z 150) (Qc_of_Z 170) (clamp 120 219 he)))].
Proof.
  unfold firing. rewrite check_morphological.
  rewrite (clip_percent skin_colour), (clip_percent hair_colour) by reflexivity.
  rewrite clip_height_clamp.
  cbn [rules compatibility_morphological_ctrl fmap list_fmap antecedent
       rule_skin_light rule_skin_medium rule_skin_dark strength].
  rewrite label_skin_colour, label_hair_colour, label_height.
  unfold write_inputs. cbn [foldl].
  rewrite !(lookup_insert_ne _ "height" "skin_colour") by done.
  rewrite !(lookup_insert_ne _ "height" "hair_colour") by done.
  rewrite !(lookup_insert_ne _ "hair_colour" "skin_colour") by done.
  rewrite !lookup_insert_eq. cbn [mbind option_bind].
  rewrite (degree_percent skin_colour "light" 0 25 50) by solve_degree.
  rewrite (degree_percent skin_colour "medium" 25 50 75) by solve_degree.
  rewrite (degree_percent skin_colour "dark" 50 75 100) by solve_degree.
  rewrite (degree_percent hair_colour "blonde" 0 25 50) by solve_degree.
  rewrite (degree_percent hair_colour "brown" 25 50 75) by solve_degree.
  rewrite (degree_percent hair_colour "black" 50 75 100) by solve_degree.
  rewrite (degree_height "tall" 170 190 220) by solve_degree.
  rewrite (degree_height "average" 150 170 190) by solve_degree.
  by rewrite (degree_height "short" 120 150 170) by solve_degree.
Qed.

(** ** Properties of the whole program *)

Lemma Qc_div_pos (p d : Qc) : 0 < p → 0 < d → 0 < p / d.
Proof. intros. qc2q. apply Qlt_shift_div_l; lra. Qed.

Lemma trimf_pt_pos (a b c x : Qc) :
  a < b → b < c → a < x → x < c → 0 < trimf_pt a b c x.
Proof.
  intros Hab Hbc Hax Hxc. destruct (Qclt_le_dec x b) as [Hxb|Hbx].
  - rewrite trimf_pt_on_rise;
      [|done|by apply Qclt_le_weak|by apply Qclt_le_weak|by apply Qclt_le_weak].
    apply Qc_div_pos; qc_lra.
  - rewrite trimf_pt_on_fall;
      [|by apply Qclt_le_weak|done|done|by apply Qclt_le_weak].
    apply Qc_div_pos; qc_lra.
Qed.

(** The three triangles on [[0, 100]] vanish together exactly at the two
    ends. *)
Lemma percent_triangles_zero (x : Qc) :
  Qc_of_Z 0 ≤ x → x ≤ Qc_of_Z 100 →
  (trimf_pt (Qc_of_Z 0) (Qc_of_Z 25) (Qc_of_Z 50) x = 0 ∧
   trimf_pt (Qc_of_Z 25) (Qc_of_Z 50) (Qc_of_Z 75) x = 0 ∧
   trimf_pt (Qc_of_Z 50) (Qc_of_Z 75) (Qc_of_Z 100) x = 0) ↔
  (x = Qc_of_Z 0 ∨ x = Qc_of_Z 100).
Proof.
  intros H0 H100. split.
  - intros (H1 & H2 & H3).
    destruct (decide (x = Qc_of_Z 0)) as [|Hn0]; [by left|].
    destruct (decide (x = Qc_of_Z 100)) as [|Hn100]; [by right|].
    exfalso.
    assert (Hx0 : Qc_of_Z 0 < x) by (apply Qc_lt_of_le_ne; [done | congruence]).
    assert (Hx100 : x < Qc_of_Z 100) by by apply Qc_lt_of_le_ne.
    destruct (Qclt_le_dec x (Qc_of_Z 50)) as [Hlt|Hge].
    + pose proof (trimf_pt_pos (Qc_of_Z 0) (Qc_of_Z 25) (Qc_of_Z 50) x) as Hp.
      rewrite H1 in Hp. eapply Qclt_not_eq; [apply Hp|]; try done;
        by apply Qc_of_Z_lt.
    + destruct (decide (x = Qc_of_Z 50)) as [->|Hn50].
      * rewrite trimf_pt_peak in H2. by apply Q_apart_0_1 in H2.
      * pose proof (trimf_pt_pos (Qc_of_Z 50) (Qc_of_Z 75) (Qc_of_Z 100) x) as Hp.
        rewrite H3 in Hp. eapply Qclt_not_eq; [apply Hp|]; try done;
          try by apply Qc_of_Z_lt.
        apply Qc_lt_of_le_ne; [done | congruence].
  - intros [-> | ->]; split_and!; by apply Qc_is_canon; vm_compute.
Qed.

Lemma percent_firing_zero (v : Qc) :
  Forall (λ s, s = Some 0)
    [Some (trimf_pt (Qc_of_Z 0) (Qc_of_Z 25) (Qc_of_Z 50) (clamp 0 100 v));
     Some (trimf_pt (Qc_of_Z 25) (Qc_of_Z 50) (Qc_of_Z 75) (clamp 0 100 v));
     Some (trimf_pt (Qc_of_Z 50) (Qc_of_Z 75) (Qc_of_Z 100) (clamp 0 100 v))] ↔
  (v ≤ 0 ∨ Qc_of_Z 100 ≤ v).
Proof.
  destruct (clamp_range 0 100 v) as [Hlo Hhi]; [lia|].
  pose proof (percent_triangles_zero (clamp 0 100 v) Hlo Hhi) as Hz.
  rewrite (clamp_low 0 100), (clamp_high 0 100) in Hz by lia.
  rewrite <-Hz. split.
  - intros H. inversion H as [|?? [= H1] H']; subst.
    inversion H' as [|?? [= H2] H'']; subst.
    inversion H'' as [|?? [= H3] _]; subst. split_and!; congruence.
  - intros (-> & -> & ->). by repeat constructor.
Qed.

Lemma Qc_of_Z_0 : Qc_of_Z 0 = 0.
Proof. by apply Qc_is_canon. Qed.

Lemma mean_range (m p d s : Qc) :
  (0 ≤ m ∧ m ≤ Qc_of_Z 100) → (0 ≤ p ∧ p ≤ Qc_of_Z 100) →
  (0 ≤ d ∧ d ≤ Qc_of_Z 100) → (0 ≤ s ∧ s ≤ Qc_of_Z 100) →
  0 ≤ (m + p + d + s) / Qc_of_Z 4 ∧ (m + p + d + s) / Qc_of_Z 4 ≤ Qc_of_Z 100.
Proof.
  intros [??] [??] [??] [??].
  assert (Hfour : 0 < Qc_of_Z 4) by by vm_compute.
  split; [apply Qc_div_nonneg | apply Qc_div_le_of]; try done.
  - qc_lra.
  - qc2q. unfold inject_Z in *. lra.
Qed.

Lemma group_morphological sk ha he te bl ed :
  (compatibility_morphological_ctrl,
   [("skin_colour", sk); ("hair_colour", ha); ("height", he)])
  ∈ groups sk ha he te bl ed.
Proof. apply elem_of_cons. by left. Qed.
Lemma group_psychological sk ha he te bl ed :
  (compatibility_psychological_ctrl, [("temperament", te)])
  ∈ groups sk ha he te bl ed.
Proof. apply elem_of_cons. right. apply elem_of_cons. by left. Qed.
Lemma group_medical sk ha he te bl ed :
  (compatibility_medical_ctrl, [("blood_group", bl)]) ∈ groups sk ha he te bl ed.
Proof. do 2 (apply elem_of_cons; right). apply elem_of_cons. by left. Qed.
Lemma group_salary sk ha he te bl ed :
  (compatibility_salary_ctrl, [("educational_level", ed)])
  ∈ groups sk ha he te bl ed.
Proof. do 3 (apply elem_of_cons; right). apply elem_of_cons. by left. Qed.

(** The program returns a score exactly when in each of the four groups
    some rule fires; the score then lies in [[0, 100]]; otherwise it raises
    the ValueError of an empty output set, and nothing else. *)
Lemma program_outcomes sk ha he te bl ed cur :
  (Exists (λ g, Forall (λ s, s = Some 0) (firing g.1 g.2))
     (groups sk ha he te bl ed) →
   score (compute_compatibility_score sk ha he te bl ed cur) =
   Raise (ValueError "Crisp output cannot be calculated.")) ∧
  (¬ Exists (λ g, Forall (λ s, s = Some 0) (firing g.1 g.2))
       (groups sk ha he te bl ed) →
   ∃ s, score (compute_compatibility_score sk ha he te bl ed cur) = Ok s ∧
        0 ≤ s ∧ s ≤ Qc_of_Z 100).
Proof.
  rewrite score_by_groups.
  destruct (groups_outcomes sk ha he te bl ed _ _ cur
              (group_morphological sk ha he te bl ed)) as [Hzm Hnm].
  destruct (groups_outcomes sk ha he te bl ed _ _ cur
              (group_psychological sk ha he te bl ed)) as [Hzp Hnp].
  destruct (groups_outcomes sk ha he te bl ed _ _ cur
              (group_medical sk ha he te bl ed)) as [Hzd Hnd].
  destruct (groups_outcomes sk ha he te bl ed _ _ cur
              (group_salary sk ha he te bl ed)) as [Hzs Hns].
  unfold groups. rewrite !Exists_cons, Exists_nil. cbn [fst snd].
  set (Zm := Forall _ (firing compatibility_morphological_ctrl _)) in *.
  set (Zp := Forall _ (firing compatibility_psychological_ctrl _)) in *.
  set (Zd := Forall _ (firing compatibility_medical_ctrl _)) in *.
  set (Zs := Forall _ (firing compatibility_salary_ctrl _)) in *.
  pose proof (decide Zm) as Dm. pose proof (decide Zp) as Dp.
  pose proof (decide Zd) as Dd. pose proof (decide Zs) as Ds.
  clearbody Zm Zp Zd Zs.
  destruct Dm as [Hm|Hm].
  { rewrite (Hzm Hm). split; [by intros _ | intros Hn; exfalso; tauto]. }
  destruct (Hnm Hm) as (m & -> & Hmr).
  destruct Dp as [Hp|Hp].
  { rewrite (Hzp Hp). split; [by intros _ | intros Hn; exfalso; tauto]. }
  destruct (Hnp Hp) as (p & -> & Hpr).
  destruct Dd as [Hd|Hd].
  { rewrite (Hzd Hd). split; [by intros _ | intros Hn; exfalso; tauto]. }
  destruct (Hnd Hd) as (d & -> & Hdr).
  destruct Ds as [Hs|Hs].
  { rewrite (Hzs Hs). split; [by intros _ | intros Hn; exfalso; tauto]. }
  destruct (Hns Hs) as (s & -> & Hsr).
  split; [intros Hex; exfalso; tauto|].
  intros _. eexists. split; [reflexivity|]. by apply mean_range.
Qed.

(** A group with a single input raises exactly when that input, as given,
    is at or below 0 or at or above 100. *)
Lemma single_input_outcomes c key v cur :
  (c, key) ∈ [(compatibility_psychological_ctrl, "temperament");
              (compatibility_medical_ctrl, "blood_group");
              (compatibility_salary_ctrl, "educational_level")] →
  (score (infer c [(key, v)] cur) =
   Raise (ValueError "Crisp output cannot be calculated.") ↔
   (v ≤ 0 ∨ Qc_of_Z 100 ≤ v)) ∧
  ((∃ s, score (infer c [(key, v)] cur) = Ok s ∧ 0 ≤ s ∧ s ≤ Qc_of_Z 100) ↔
   (0 < v ∧ v < Qc_of_Z 100)).
Proof.
  rewrite !elem_of_cons, elem_of_nil.
  assert (Hcases : ∀ o : Result Qc,
    ((v ≤ 0 ∨ Qc_of_Z 100 ≤ v) →
       o = Raise (ValueError "Crisp output cannot be calculated.")) →
    (¬ (v ≤ 0 ∨ Qc_of_Z 100 ≤ v) → ∃ s, o = Ok s ∧ 0 ≤ s ∧ s ≤ Qc_of_Z 100) →
    (o = Raise (ValueError "Crisp output cannot be calculated.") ↔
     (v ≤ 0 ∨ Qc_of_Z 100 ≤ v)) ∧
    ((∃ s, o = Ok s ∧ 0 ≤ s ∧ s ≤ Qc_of_Z 100) ↔ (0 < v ∧ v < Qc_of_Z 100))).
  { intros o Hz Hnz.
    assert (Hiff : (0 < v ∧ v < Qc_of_Z 100) ↔ ¬ (v ≤ 0 ∨ Qc_of_Z 100 ≤ v)).
    { split.
      - intros [H1 H2] [H|H];
          [exact (Qclt_not_le _ _ H1 H) | exact (Qclt_not_le _ _ H2 H)].
      - intros H. split; apply Qcnot_le_lt; tauto. }
    destruct (decide (v ≤ 0 ∨ Qc_of_Z 100 ≤ v)) as [Hb|Hb].
    - rewrite (Hz Hb). split; [split; [by intros _ | done]|]. split.
      + by intros (s & ? & _).
      + intros H. apply Hiff in H. by destruct H.
    - destruct (Hnz Hb) as (s & -> & Hs). split.
      + split; [by intros ? | intros H; by destruct Hb].
      + split; [intros _; by apply Hiff | intros _; by exists s]. }
  intros [[= -> ->]|[[= -> ->]|[[= -> ->]|[]]]]; apply Hcases.
  - intros Hb. apply (groups_outcomes v v v v v v); [apply group_psychological|].
    rewrite firing_psychological. by apply percent_firing_zero.
  - intros Hb. apply (groups_outcomes v v v v v v); [apply group_psychological|].
    rewrite firing_psychological. by rewrite percent_firing_zero.
  - intros Hb. apply (groups_outcomes v v v v v v); [apply group_medical|].
    rewrite firing_medical. by apply percent_firing_zero.
  - intros Hb. apply (groups_outcomes v v v v v v); [apply group_medical|].
    rewrite firing_medical. by rewrite percent_firing_zero.
  - intros Hb. apply (groups_outcomes v v v v v v); [apply group_salary|].
    rewrite firing_salary. by apply percent_firing_zero.
  - intros Hb. apply (groups_outcomes v v v v v v); [apply group_salary|].
    rewrite firing_salary. by rewrite percent_firing_zero.
Qed.

Lemma fmin_zero_l (y : Qc) : 0 ≤ y → fmin 0 y = 0.
Proof. intros H. unfold fmin. by rewrite bool_decide_eq_true_2. Qed.

Lemma fmin_zero_r (x : Qc) : 0 ≤ x → fmin x 0 = 0.
Proof.
  intros H. unfold fmin. case_bool_decide; [by apply Qcle_antisym | done].
Qed.

Lemma clamp_le (lo hi : Z) (v b : Qc) :
  v ≤ b → Qc_of_Z lo ≤ b → clamp lo hi v ≤ b.
Proof.
  intros Hv Hb. unfold clamp. apply fmax_lub; [|done].
  eapply Qcle_trans; [apply fmin_le_l | done].
Qed.

Lemma clamp_ge (lo hi : Z) (v b : Qc) :
  b ≤ v → b ≤ Qc_of_Z hi → b ≤ clamp lo hi v.
Proof.
  intros Hv Hb. unfold clamp.
  eapply Qcle_trans; [|apply fmax_ge_l]. by apply fmin_glb.
Qed.

Lemma clamp_clip_percent (var : FuzzyVariable) (v : Qc) :
  universe var = arange 0 101 1 → clip var (clamp 0 100 v) = clip var v.
Proof. intros Hu. rewrite !(clip_percent var) by done. by apply clamp_idem. Qed.

Lemma clamp_clip_height (v : Qc) : clip height (clamp 120 219 v) = clip height v.
Proof. rewrite !clip_height_clamp. by apply clamp_idem. Qed.

(** X1: an input outside the universe of its variable counts as the
    nearest universe bound.  For six inputs within the 64-bit integer
    range, the outcome of the whole program (its score, or its failure) is
    the outcome for the inputs limited to 0..100 (height: 120..219).  In
    particular a height of 220 gives the outcome of a height of 219. *)
Theorem inputs_are_clamped :
  (∀ sk ha he te bl ed cur,
     Forall within_int64 [sk; ha; he; te; bl; ed] →
     score (compute_compatibility_score sk ha he te bl ed cur) =
     score (compute_compatibility_score
              (clamp 0 100 sk) (clamp 0 100 ha) (clamp 120 219 he)
              (clamp 0 100 te) (clamp 0 100 bl) (clamp 0 100 ed) cur)) ∧
  (∀ sk ha te bl ed cur,
     Forall within_int64 [sk; ha; te; bl; ed] →
     score (compute_compatibility_score sk ha (Qc_of_Z 220) te bl ed cur) =
     score (compute_compatibility_score sk ha (Qc_of_Z 219) te bl ed cur)).
Proof.
  split.
  - intros sk ha he te bl ed cur _.
    rewrite !compute_compatibility_score_spec. cbv zeta.
    rewrite (clamp_clip_percent skin_colour), (clamp_clip_percent hair_colour),
      (clamp_clip_percent temperament), (clamp_clip_percent blood_group),
      (clamp_clip_percent educational_level) by reflexivity.
    by rewrite clamp_clip_height.
  - intros sk ha te bl ed cur _.
    rewrite !compute_compatibility_score_spec. cbv zeta.
    replace (clip height (Qc_of_Z 220)) with (clip height (Qc_of_Z 219)); [done|].
    rewrite !clip_height_clamp. apply Qc_is_canon. by vm_compute.
Qed.

Lemma inputs_are_clamped_witness :
  score (compute_compatibility_score (Qc_of_Z 70) (Qc_of_Z 60) (Qc_of_Z 220)
           (Qc_of_Z 20) (Qc_of_Z 30) (Qc_of_Z 80) ∅) =
  score (compute_compatibility_score (Qc_of_Z 70) (Qc_of_Z 60) (Qc_of_Z 219)
           (Qc_of_Z 20) (Qc_of_Z 30) (Qc_of_Z 80) ∅).
Proof.
  apply (proj2 inputs_are_clamped).
  repeat constructor; vm_compute; congruence.
Defined.

(** X2: for integer inputs, as the docstring declares them, within the
    64-bit range: when in each of the four groups some rule fires the
    program returns a score, and the score lies in [[0, 100]]; when in some
    group every rule has firing strength zero it returns no score: the
    call raises. *)
Theorem overall_score_outcomes (sk ha he te bl ed : Z) (cur : gmap string Qc) :
  Forall within_int64 (Qc_of_Z <$> [sk; ha; he; te; bl; ed]) →
  (Exists (λ g, Forall (λ s, s = Some 0) (firing g.1 g.2))
     (groups (Qc_of_Z sk) (Qc_of_Z ha) (Qc_of_Z he)
             (Qc_of_Z te) (Qc_of_Z bl) (Qc_of_Z ed)) →
   ∃ e, score (compute_compatibility_score (Qc_of_Z sk) (Qc_of_Z ha) (Qc_of_Z he)
                 (Qc_of_Z te) (Qc_of_Z bl) (Qc_of_Z ed) cur) = Raise e) ∧
  (¬ Exists (λ g, Forall (λ s, s = Some 0) (firing g.1 g.2))
       (groups (Qc_of_Z sk) (Qc_of_Z ha) (Qc_of_Z he)
               (Qc_of_Z te) (Qc_of_Z bl) (Qc_of_Z ed)) →
   ∃ s, score (compute_compatibility_score (Qc_of_Z sk) (Qc_of_Z ha) (Qc_of_Z he)
                 (Qc_of_Z te) (Qc_of_Z bl) (Qc_of_Z ed) cur) = Ok s ∧
        0 ≤ s ∧ s ≤ Qc_of_Z 100).
Proof.
  intros _.
  destruct (program_outcomes (Qc_of_Z sk) (Qc_of_Z ha) (Qc_of_Z he)
              (Qc_of_Z te) (Qc_of_Z bl) (Qc_of_Z ed) cur) as [Hzero Hfire].
  split; [|exact Hfire]. intros Hex. eexists. by apply Hzero.
Qed.

(** X3: for every term app.py declares and every value within the
    variable's universe, the degree computed by interpolation on the
    sampled membership array equals the triangular function itself:
    sampling at the integers loses nothing. *)
Theorem fuzzification_is_exact (var : FuzzyVariable)
    (ts : list (string * (Z * Z * Z))) (key : string) (a b c : Z) (x : Qc) :
  (var, ts) ∈ declared_terms → (key, (a, b, c)) ∈ ts →
  amin (universe var) ≤ x → x ≤ amax (universe var) →
  degree var key x = Some (trimf_pt (Qc_of_Z a) (Qc_of_Z b) (Qc_of_Z c) x).
Proof. apply declared_degree. Qed.

Lemma fuzzification_is_exact_witness :
  degree height "tall" (Q2Qc (437 # 2)) =
  Some (trimf_pt (Qc_of_Z 170) (Qc_of_Z 190) (Qc_of_Z 220) (Q2Qc (437 # 2))).
Proof.
  apply (fuzzification_is_exact height
           [("short", (120, 150, 170)); ("average", (150, 170, 190));
            ("tall", (170, 190, 220))]%Z).
  - unfold declared_terms. do 3 (apply elem_of_cons; right).
    apply elem_of_cons. left. reflexivity.
  - do 2 (apply elem_of_cons; right). apply elem_of_cons. left. reflexivity.
  - vm_compute. congruence.
  - vm_compute. congruence.
Defined.

(** X4: the psychological, medical and salary groups have one input each.
    For an integer input, as the docstring declares it, within the 64-bit
    range, such a group returns no score (the call raises) exactly when
    the input is at most 0 or at least 100, and returns a score, which lies
    in [[0, 100]], exactly when the input is one of 1..99. *)
Theorem single_input_group_outcomes (c : ControlSystem) (key : string) (n : Z)
    (cur : gmap string Qc) :
  (c, key) ∈ [(compatibility_psychological_ctrl, "temperament");
              (compatibility_medical_ctrl, "blood_group");
              (compatibility_salary_ctrl, "educational_level")] →
  within_int64 (Qc_of_Z n) →
  ((∃ e, score (infer c [(key, Qc_of_Z n)] cur) = Raise e) ↔
   (n ≤ 0 ∨ 100 ≤ n)%Z) ∧
  ((∃ s, score (infer c [(key, Qc_of_Z n)] cur) = Ok s ∧
         0 ≤ s ∧ s ≤ Qc_of_Z 100) ↔
   (1 ≤ n ≤ 99)%Z).
Proof.
  intros Hin _.
  destruct (single_input_outcomes c key (Qc_of_Z n) cur Hin) as [Hraise Hscore].
  rewrite <-Qc_of_Z_0 in Hraise, Hscore.
  rewrite !Qc_of_Z_le in Hraise. rewrite !Qc_of_Z_lt in Hscore.
  split; split.
  - intros [e He]. destruct (decide (n ≤ 0 ∨ 100 ≤ n)%Z) as [|Hn]; [done|].
    destruct (proj2 Hscore) as (s & Hs & _); [lia|]. congruence.
  - intros Hn. eexists. by apply Hraise.
  - intros Hs. apply Hscore in Hs. lia.
  - intros Hn. apply Hscore. lia.
Qed.

Lemma single_input_group_outcomes_witness :
  ∃ e, score (infer compatibility_medical_ctrl
                [("blood_group", Qc_of_Z 100)] ∅) = Raise e.
Proof.
  refine (proj2 (proj1 (single_input_group_outcomes compatibility_medical_ctrl
                          "blood_group" 100 ∅ _ _)) _).
  - apply elem_of_cons. right. apply elem_of_cons. left. reflexivity.
  - split; vm_compute; congruence.
  - right. lia.
Defined.

(** X5: the verdict does not depend on which of the two scores is given
    first, and raising either score never turns High into Low. *)
Theorem verdict_symmetric_monotone :
  (∀ a b, verdict a b = verdict b a) ∧
  (∀ a b a' b', a ≤ a' → b ≤ b' → verdict a b = High → verdict a' b' = High).
Proof.
  split.
  - intros a b. unfold verdict. by rewrite andb_comm.
  - intros a b a' b' Ha Hb. unfold verdict.
    destruct (bool_decide (Qc_of_Z 50 ≤ a)) eqn:E1; [|done].
    destruct (bool_decide (Qc_of_Z 50 ≤ b)) eqn:E2; [|done].
    apply bool_decide_eq_true in E1, E2. intros _.
    rewrite (bool_decide_eq_true_2 (Qc_of_Z 50 ≤ a')) by exact (Qcle_trans _ _ _ E1 Ha).
    by rewrite (bool_decide_eq_true_2 (Qc_of_Z 50 ≤ b')) by exact (Qcle_trans _ _ _ E2 Hb).
Qed.


Lemma unit_triangle (a b c : Z) (x : Qc) :
  (a ≤ b ≤ c)%Z →
  0 ≤ trimf_pt (Qc_of_Z a) (Qc_of_Z b) (Qc_of_Z c) x ∧
  trimf_pt (Qc_of_Z a) (Qc_of_Z b) (Qc_of_Z c) x ≤ 1.
Proof. intros [??]. apply trimf_pt_range; by apply Qc_of_Z_le. Qed.



Lemma triangle_zero_left (a b c : Z) (x : Qc) :
  (a < b < c)%Z → x ≤ Qc_of_Z a →
  trimf_pt (Qc_of_Z a) (Qc_of_Z b) (Qc_of_Z c) x = 0.
Proof.
  intros [Hab Hbc] Hx. apply trimf_pt_left; [apply Qc_of_Z_le; lia..|done|].
  intros ->. apply (proj1 (Qc_of_Z_le _ _)) in Hx. lia.
Qed.

Lemma triangle_zero_right (a b c : Z) (x : Qc) :
  (a < b < c)%Z → Qc_of_Z c ≤ x →
  trimf_pt (Qc_of_Z a) (Qc_of_Z b) (Qc_of_Z c) x = 0.
Proof.
  intros [Hab Hbc] Hx. apply trimf_pt_right; [apply Qc_of_Z_le; lia..|done|].
  intros ->. apply (proj1 (Qc_of_Z_le _ _)) in Hx. lia.
Qed.

(** X7: the zero-aggregate case also occurs strictly inside the declared
    ranges.  With light skin and black hair (skin at most 25, hair at least
    75), or dark skin and blonde hair (skin at least 75, hair at most 25),
    no morphological rule fires and the program returns no score: the call
    raises, whatever the other four inputs are (all six within the 64-bit
    integer range). *)
Theorem mismatched_skin_and_hair_raise (sk ha he te bl ed : Qc)
    (cur : gmap string Qc) :
  Forall within_int64 [sk; ha; he; te; bl; ed] →
  (sk ≤ Qc_of_Z 25 ∧ Qc_of_Z 75 ≤ ha) ∨ (Qc_of_Z 75 ≤ sk ∧ ha ≤ Qc_of_Z 25) →
  ∃ e, score (compute_compatibility_score sk ha he te bl ed cur) = Raise e.
Proof.
  intros _ Hcase. eexists. apply program_outcomes. unfold groups.
  apply Exists_cons. left. cbn [fst snd]. rewrite firing_morphological.
  assert (Hu : ∀ (a b c : Z) x, (a ≤ b ≤ c)%Z →
            0 ≤ trimf_pt (Qc_of_Z a) (Qc_of_Z b) (Qc_of_Z c) x).
  { intros. by apply unit_triangle. }
  destruct Hcase as [[Hsk Hha]|[Hsk Hha]].
  - assert (Hsk' : clamp 0 100 sk ≤ Qc_of_Z 25)
      by (apply clamp_le; [done | apply Qc_of_Z_le; lia]).
    assert (Hha' : Qc_of_Z 75 ≤ clamp 0 100 ha)
      by (apply clamp_ge; [done | apply Qc_of_Z_le; lia]).
    rewrite (triangle_zero_right 0 25 50 (clamp 0 100 ha));
      [|lia|eapply Qcle_trans; [|exact Hha']; apply Qc_of_Z_le; lia].
    rewrite (triangle_zero_left 25 50 75 (clamp 0 100 sk)) by (lia || done).
    rewrite (triangle_zero_left 50 75 100 (clamp 0 100 sk));
      [|lia|eapply Qcle_trans; [exact Hsk'|]; apply Qc_of_Z_le; lia].
    rewrite fmin_zero_r by (apply Hu; lia).
    rewrite !(fmin_zero_l (trimf_pt _ _ _ (clamp 0 100 ha))) by (apply Hu; lia).
    rewrite !fmin_zero_l by (apply Hu; lia).
    by repeat constructor.
  - assert (Hsk' : Qc_of_Z 75 ≤ clamp 0 100 sk)
      by (apply clamp_ge; [done | apply Qc_of_Z_le; lia]).
    assert (Hha' : clamp 0 100 ha ≤ Qc_of_Z 25)
      by (apply clamp_le; [done | apply Qc_of_Z_le; lia]).
    rewrite (triangle_zero_right 0 25 50 (clamp 0 100 sk));
      [|lia|eapply Qcle_trans; [|exact Hsk']; apply Qc_of_Z_le; lia].
    rewrite (triangle_zero_right 25 50 75 (clamp 0 100 sk)) by (lia || done).
    rewrite (triangle_zero_left 50 75 100 (clamp 0 100 ha));
      [|lia|eapply Qcle_trans; [exact Hha'|]; apply Qc_of_Z_le; lia].
    rewrite !(fmin_zero_l (trimf_pt _ _ _ (clamp 0 100 ha))) by (apply Hu; lia).
    rewrite fmin_zero_r by (apply Hu; lia).
    rewrite !fmin_zero_l by (apply Hu; lia).
    by repeat constructor.
Qed.

Lemma mismatched_skin_and_hair_raise_witness :
  ∃ e, score (compute_compatibility_score (Qc_of_Z 20) (Qc_of_Z 80) (Qc_of_Z 180)
                (Qc_of_Z 20) (Qc_of_Z 30) (Qc_of_Z 80) ∅) = Raise e.
Proof.
  apply mismatched_skin_and_hair_raise.
  - repeat constructor; vm_compute; congruence.
  - left. split; vm_compute; congruence.
Defined.

(** X8: the two ends of the height variable behave differently.  Within
    the 64-bit integer range, a height of 120 or less has degree 0 in
    [short], like the lower end of every other triangle; but a height of
    219 or more has degree 1/30 in [tall], never 0, because the universe
    [arange(120, 220, 1)] stops one short of the foot 220 of that
    triangle. *)
Theorem height_ends_differ :
  (∀ he, within_int64 he → he ≤ Qc_of_Z 120 →
         degree height "short" (clip height he) = Some 0) ∧
  (∀ he, within_int64 he → Qc_of_Z 219 ≤ he →
         degree height "tall" (clip height he) = Some (Q2Qc (1 # 30))).
Proof.
  split; intros he _ Hhe; rewrite clip_height_clamp.
  - rewrite (degree_height "short" 120 150 170) by (reflexivity || lia).
    f_equal. apply triangle_zero_left; [lia|].
    by rewrite (proj2 (clamp_low 120 219 he ltac:(lia)) Hhe).
  - rewrite (degree_height "tall" 170 190 220) by (reflexivity || lia).
    rewrite (proj2 (clamp_high 120 219 he ltac:(lia)) Hhe).
    f_equal; apply Qc_is_canon; by vm_compute.
Qed.

Lemma height_ends_differ_witness :
  degree height "tall" (clip height (Qc_of_Z 250)) = Some (Q2Qc (1 # 30)).
Proof.
  apply (proj2 height_ends_differ (Qc_of_Z 250)).
  - split; vm_compute; congruence.
  - vm_compute. congruence.
Defined.

Lemma score_slots_irrelevant sk ha he te bl ed cur1 cur2 :
  score (compute_compatibility_score sk ha he te bl ed cur1) =
  score (compute_compatibility_score sk ha he te bl ed cur2).
Proof.
  rewrite !score_by_groups.
  rewrite (infer_independent compatibility_morphological_ctrl
             [("skin_colour", sk); ("hair_colour", ha); ("height", he)] cur1 cur2)
    by apply complete_morphological.
  rewrite (infer_independent compatibility_psychological_ctrl
             [("temperament", te)] cur1 cur2)
    by apply complete_psychological.
  rewrite (infer_independent compatibility_medical_ctrl
             [("blood_group", bl)] cur1 cur2)
    by apply complete_medical.
  by rewrite (infer_independent compatibility_salary_ctrl
                [("educational_level", ed)] cur1 cur2)
    by apply complete_salary.
Qed.

Lemma score_value (r : Result Qc) (q : Q) :
  match r with Ok x => Some (this x) | Raise _ => None end = Some q →
  r = Ok (Q2Qc q).
Proof.
  destruct r as [x|e]; [|done]. intros [= <-]. f_equal.
  apply Qc_is_canon. simpl. symmetry. apply Qred_correct.
Qed.

Lemma score_male :
  score (compute_compatibility_score skin_color_male hair_color_male
           height_male temperament_male blood_group_male
           educational_level_male ∅) = Ok (Q2Qc (1950 # 29)).
Proof. apply score_value. vm_compute. reflexivity. Qed.

Lemma score_female :
  score (compute_compatibility_score skin_color_female hair_color_female
           height_female temperament_female blood_group_female
           educational_level_female ∅) = Ok (Q2Qc (2875 # 62)).
Proof. apply score_value. vm_compute. reflexivity. Qed.

Lemma verdict_example : verdict (Q2Qc (1950 # 29)) (Q2Qc (2875 # 62)) = Low.
Proof. vm_compute. reflexivity. Qed.

Lemma bind_score {A B} (m : M A) (k : A → M B) (a : A) (cur : gmap string Qc) :
  score (m cur) = Ok a → score (bind m k cur) = score (k a (m cur).2).
Proof.
  unfold bind, score. destruct (m cur) as [r cur']. cbn [fst snd].
  by intros ->.
Qed.

(** X9: the run of the module on its two example individuals raises no
    error, whatever the shared input slots held before.  In exact
    arithmetic the male score is 1950/29 (about 67.24), the female score is
    2875/62 (about 46.37), and the verdict printed is Low. *)
Theorem example_run (cur : gmap string Qc) :
  score (main cur) = Ok (Q2Qc (1950 # 29), Q2Qc (2875 # 62), Low).
Proof.
  unfold main.
  rewrite (bind_score _ _ (Q2Qc (1950 # 29)))
    by (rewrite (score_slots_irrelevant _ _ _ _ _ _ cur ∅); apply score_male).
  rewrite (bind_score _ _ (Q2Qc (2875 # 62)))
    by (rewrite (score_slots_irrelevant _ _ _ _ _ _ _ ∅); apply score_female).
  unfold ret, score. cbn [fst]. by rewrite verdict_example.
Qed.

Lemma overall_score_outcomes_witness :
  ∃ s, score (compute_compatibility_score (Qc_of_Z 80) (Qc_of_Z 70) (Qc_of_Z 165)
                (Qc_of_Z 70) (Qc_of_Z 40) (Qc_of_Z 70) ∅) = Ok s ∧
       0 ≤ s ∧ s ≤ Qc_of_Z 100.
Proof.
  refine (proj2 (overall_score_outcomes 80 70 165 70 40 70 ∅ _) _).
  - repeat constructor; vm_compute; congruence.
  - apply (bool_decide_unpack _). vm_compute. exact I.
Defined.

Lemma verdict_symmetric_monotone_witness :
  verdict (Qc_of_Z 80) (Qc_of_Z 90) = High.
Proof.
  apply (proj2 verdict_symmetric_monotone (Qc_of_Z 60) (Qc_of_Z 70)).
  - vm_compute. congruence.
  - vm_compute. congruence.
  - vm_compute. reflexivity.
Defined.
